(** * OSMO DTF: the client-side API governance layer

    A shallow embedding of the two singletons that guard the calls to the
    metadata provider:

    - [RateLimiter]: [APIRateLimiter] of [lib/api-rate-limiter.ts]
      (sliding window, cooldown timer, deduplication of identical pending
      requests);
    - [MetadataCache]: [TokenMetadataCache] of [lib/token-metadata-cache.ts]
      (TTL cache keyed by lower-cased address, batch coalescing);
    - [ManualTokens]: the token registry of [lib/manual-tokens.ts];
    - [TokenApi]: the cache of [TokenAPIService] of [lib/token-api.ts].

    JavaScript runs these classes on one event loop.  An [async] method is
    therefore cut at its [await]s: every synchronous stretch is one total
    function on the state of the singleton, and what the awaited promise
    settled with is the argument of the next stretch.  [Date.now()] is the
    clock field of the state and does not move inside a stretch. *)

From Stdlib Require Import ZArith Ascii String.
From stdpp Require Import gmap strings list fin_maps sorting pretty.

Local Open Scope string_scope.
Local Open Scope list_scope.
Local Open Scope Z_scope.

(** ** The fragments of the JavaScript runtime the two classes rely on *)

Module Js.

(** A completion of a piece of code: a value, or a thrown error (its
    message).  A settled promise is read the same way: fulfilled with a
    value, or rejected with an error. *)
Inductive completion (A : Type) : Type :=
| Normal (a : A)
| Throw (message : string).
Arguments Normal {A} a.
Arguments Throw {A} message.

(** [try { body } catch (error) { handler }] *)
Definition try_catch {A} (body : completion A) (handler : string → completion A)
  : completion A :=
  match body with
  | Normal a => Normal a
  | Throw e => handler e
  end.

Definition bind {A B} (c : completion A) (k : A → completion B) : completion B :=
  match c with
  | Normal a => k a
  | Throw e => Throw e
  end.

(** Truthiness of a string operand of [||], [?:] and [!!]: absent
    ([undefined]) and the empty string are falsy. *)
Definition truthy (s : option string) : bool :=
  match s with
  | Some (String _ _) => true
  | _ => false
  end.

(** [String.prototype.toLowerCase] on the ASCII range, which holds every
    hexadecimal address; other code units are kept. *)
Definition lower (c : ascii) : ascii :=
  let n := N_of_ascii c in
  if ((65 <=? n) && (n <=? 90))%N then ascii_of_N (n + 32) else c.

Fixpoint toLowerCase (s : string) : string :=
  match s with
  | EmptyString => EmptyString
  | String c s' => String (lower c) (toLowerCase s')
  end.

(** [Array.prototype.join] *)
Definition join (sep : string) (l : list string) : string := String.concat sep l.

(** The default order of [Array.prototype.sort]: strings compared code unit
    by code unit. *)
Definition str_le (a b : string) : Prop := Is_true (String.leb a b).

#[global] Instance str_le_dec : RelDecision str_le.
Proof. intros a b. unfold str_le. apply _. Defined.

#[global] Instance str_le_total : Total str_le.
Proof.
  intros a b. unfold str_le.
  destruct (String.leb_total a b) as [H | H]; rewrite H; simpl; auto.
Qed.

(** The array that [sort] leaves behind.  The order is total and
    antisymmetric, so the result does not depend on the algorithm. *)
Definition sort (l : list string) : list string := merge_sort str_le l.

Definition dquote : ascii := ascii_of_N 34.
Definition backslash : ascii := ascii_of_N 92.

Definition hex_digit (n : N) : ascii :=
  if (n <? 10)%N then ascii_of_N (48 + n) else ascii_of_N (87 + n).

(** One character inside a JSON string literal. *)
Definition json_char (c : ascii) : string :=
  let n := N_of_ascii c in
  if (n =? 34)%N then String backslash (String dquote EmptyString)
  else if (n =? 92)%N then String backslash (String backslash EmptyString)
  else if (n =? 8)%N then String backslash "b"
  else if (n =? 9)%N then String backslash "t"
  else if (n =? 10)%N then String backslash "n"
  else if (n =? 12)%N then String backslash "f"
  else if (n =? 13)%N then String backslash "r"
  else if (n <? 32)%N then
    String backslash
      ("u00" +:+ String (hex_digit (n / 16)) (String (hex_digit (n mod 16)) EmptyString))
  else String c EmptyString.

Fixpoint json_chars (s : string) : string :=
  match s with
  | EmptyString => EmptyString
  | String c s' => json_char c +:+ json_chars s'
  end.

(** [JSON.stringify] of a string value. *)
Definition stringify (s : string) : string :=
  String dquote (json_chars s +:+ String dquote EmptyString).

(** [String.prototype.toUpperCase] on the ASCII range. *)
Definition upper (c : ascii) : ascii :=
  let n := N_of_ascii c in
  if ((97 <=? n) && (n <=? 122))%N then ascii_of_N (n - 32) else c.

Fixpoint toUpperCase (s : string) : string :=
  match s with
  | EmptyString => EmptyString
  | String c s' => String (upper c) (toUpperCase s')
  end.

(** [hay.includes(needle)] *)
Fixpoint includes (hay needle : string) : bool :=
  String.prefix needle hay ||
  match hay with
  | EmptyString => false
  | String _ rest => includes rest needle
  end.

(** The test of [/^0x[a-fA-F0-9]{40}$/]. *)
Definition is_hex (c : ascii) : bool :=
  let n := N_of_ascii c in
  (((48 <=? n) && (n <=? 57)) || ((97 <=? n) && (n <=? 102)) ||
   ((65 <=? n) && (n <=? 70)))%N.

Fixpoint hex_run (count : nat) (s : string) : bool :=
  match count, s with
  | O, EmptyString => true
  | S count', String c rest => is_hex c && hex_run count' rest
  | _, _ => false
  end.

Definition is_address (s : string) : bool :=
  match s with
  | String c0 (String c1 rest) =>
      (N_of_ascii c0 =? 48)%N && (N_of_ascii c1 =? 120)%N && hex_run 40 rest
  | _ => false
  end.

(** Reading a JSON string literal back, from the character after the
    opening quote up to the closing quote.  It is not part of the source:
    it serves to show that [stringify] loses nothing. *)
Definition hex_value (c : ascii) : N :=
  let n := N_of_ascii c in if (n <? 58)%N then (n - 48)%N else (n - 87)%N.

Fixpoint unstringify (s : string) : string :=
  match s with
  | EmptyString => EmptyString
  | String c r =>
      let n := N_of_ascii c in
      if (n =? 34)%N then EmptyString
      else if (n =? 92)%N then
        match r with
        | EmptyString => EmptyString
        | String e r1 =>
            let m := N_of_ascii e in
            if (m =? 98)%N then String (ascii_of_N 8) (unstringify r1)
            else if (m =? 116)%N then String (ascii_of_N 9) (unstringify r1)
            else if (m =? 110)%N then String (ascii_of_N 10) (unstringify r1)
            else if (m =? 102)%N then String (ascii_of_N 12) (unstringify r1)
            else if (m =? 114)%N then String (ascii_of_N 13) (unstringify r1)
            else if (m =? 117)%N then
              match r1 with
              | String _ (String _ (String h1 (String h2 r2))) =>
                  String (ascii_of_N (16 * hex_value h1 + hex_value h2)) (unstringify r2)
              | _ => EmptyString
              end
            else String e (unstringify r1)
        end
      else String c (unstringify r)
  end.

End Js.

(** ** The rate limiter ([APIRateLimiter]) *)

Module RateLimiter.
Import Js.

Record PendingRequest := {
  promise : nat;       (* identity of the shared in-flight promise *)
  timestamp : Z;
}.

Record RateLimitConfig := {
  maxRequests : Z;
  windowMs : Z;
  cooldownMs : Z;
  hasApiKeyFlag : bool;     (* the field hasApiKey *)
}.

(** The part of [RequestInit] the callers of this repository fill in. *)
Record RequestInit := {
  method : option string;
  headers : list (string * string);
  body : option string;
}.

(** [process.env.NEXT_PUBLIC_COINGECKO_API_KEY]: absent, or a string. *)
Definition Env := option string.

Definition hasApiKey (env : Env) : bool := truthy env.

Definition getMaxRequests (env : Env) : Z :=
  if hasApiKey env then 100 else 30.

Definition getCooldownMs (env : Env) : Z :=
  if hasApiKey env then 1000 else 2000.

Definition mkConfig (env : Env) : RateLimitConfig :=
  {| maxRequests := getMaxRequests env;
     windowMs := 60 * 1000;
     cooldownMs := getCooldownMs env;
     hasApiKeyFlag := hasApiKey env |}.

(** The fields of the singleton. *)
Record Limiter := {
  pendingRequests : gmap string PendingRequest;
  requestHistory : list Z;
  isCooldown : bool;
  cooldownTimeout : option nat;      (* handle of the last cooldown timer *)
  config : RateLimitConfig;
}.

(** What a timer runs when it fires. *)
Inductive Task :=
| ClearCooldown
    (* the arrow function of [recordRequest]: isCooldown = false *)
| ResumeRequest (caller : nat) (url : string) (options : option RequestInit).
    (* [resolve] of the backoff promise: [makeRequest] goes on after its await *)

Record Timer := { handle : nat; due : Z; job : Task }.

(** A call of [fetch]. *)
Record Fetch := {
  fetch_promise : nat;
  fetch_url : string;
  fetch_options : option RequestInit;
}.

(** The limiter together with the event loop around it. *)
Record World := {
  clock : Z;                        (* Date.now() *)
  self : Limiter;                   (* this *)
  timers : list Timer;              (* armed timers, in the order they were set *)
  next_handle : nat;
  next_promise : nat;
  fetches : list Fetch;             (* network calls issued, oldest first *)
  frames : list (nat * string);     (* makeRequest frames inside try: promise awaited, requestKey *)
  handed : list (nat * nat);        (* caller, promise whose outcome the caller receives *)
}.

Definition with_self (l : Limiter) (w : World) : World :=
  {| clock := clock w; self := l; timers := timers w;
     next_handle := next_handle w; next_promise := next_promise w;
     fetches := fetches w; frames := frames w; handed := handed w |}.

Definition with_history (h : list Z) (l : Limiter) : Limiter :=
  {| pendingRequests := pendingRequests l; requestHistory := h;
     isCooldown := isCooldown l; cooldownTimeout := cooldownTimeout l;
     config := config l |}.

Definition with_pending (m : gmap string PendingRequest) (l : Limiter) : Limiter :=
  {| pendingRequests := m; requestHistory := requestHistory l;
     isCooldown := isCooldown l; cooldownTimeout := cooldownTimeout l;
     config := config l |}.

Definition with_cooldown (b : bool) (l : Limiter) : Limiter :=
  {| pendingRequests := pendingRequests l; requestHistory := requestHistory l;
     isCooldown := b; cooldownTimeout := cooldownTimeout l;
     config := config l |}.

(** The limiter just constructed, at time [t0]. Timer handles start at 1. *)
Definition boot (env : Env) (t0 : Z) : World :=
  {| clock := t0;
     self := {| pendingRequests := ∅; requestHistory := [];
                isCooldown := false; cooldownTimeout := None;
                config := mkConfig env |};
     timers := []; next_handle := 1; next_promise := 0;
     fetches := []; frames := []; handed := [] |}.

Definition cleanupRequestHistory (now : Z) (l : Limiter) : Limiter :=
  let cutoff := now - windowMs (config l) in
  with_history (filter (λ timestamp, cutoff < timestamp) (requestHistory l)) l.

(** [canMakeRequest] answers and, outside a cooldown, prunes the history. *)
Definition canMakeRequest (now : Z) (l : Limiter) : bool * Limiter :=
  if isCooldown l then (false, l)
  else
    let l' := cleanupRequestHistory now l in
    (bool_decide (Z.of_nat (length (requestHistory l')) < maxRequests (config l')), l').

Definition clearTimeout (h : nat) (ts : list Timer) : list Timer :=
  filter (λ t, handle t ≠ h) ts.

Definition setTimeout (j : Task) (delay : Z) (w : World) : World :=
  {| clock := clock w; self := self w;
     timers := timers w ++ [{| handle := next_handle w; due := clock w + delay; job := j |}];
     next_handle := S (next_handle w); next_promise := next_promise w;
     fetches := fetches w; frames := frames w; handed := handed w |}.

Definition recordRequest (w : World) : World :=
  let l := self w in
  let kept :=
    match cooldownTimeout l with
    | Some h => clearTimeout h (timers w)
    | None => timers w
    end in
  let h := next_handle w in
  {| clock := clock w;
     self := {| pendingRequests := pendingRequests l;
                requestHistory := requestHistory l ++ [clock w];
                isCooldown := true;
                cooldownTimeout := Some h;
                config := config l |};
     timers := kept ++ [{| handle := h; due := clock w + cooldownMs (config l);
                            job := ClearCooldown |}];
     next_handle := S h; next_promise := next_promise w;
     fetches := fetches w; frames := frames w; handed := handed w |}.

Definition generateRequestKey (url : string) (options : option RequestInit) : string :=
  let m := options ≫= method in
  let method := if truthy m then default "GET" m else "GET" in
  let b := options ≫= body in
  let body := if truthy b then stringify (default "" b) else "" in
  method +:+ ":" +:+ url +:+ ":" +:+ body.

(** [executeRequest] up to its await: the request is recorded and [fetch]
    is called; the result is the promise of the call. *)
Definition executeRequest (url : string) (options : option RequestInit) (w : World)
  : World * nat :=
  let w1 := recordRequest w in
  let p := next_promise w1 in
  ({| clock := clock w1; self := self w1; timers := timers w1;
      next_handle := next_handle w1; next_promise := S p;
      fetches := fetches w1 ++ [{| fetch_promise := p; fetch_url := url;
                                   fetch_options := options |}];
      frames := frames w1; handed := handed w1 |}, p).

(** Lines 113-123 of [makeRequest]: create the request, store it as
    pending, and await it inside [try]. *)
Definition proceed (caller : nat) (url : string) (options : option RequestInit)
    (w : World) : World :=
  let requestKey := generateRequestKey url options in
  let '(w1, p) := executeRequest url options w in
  let l := self w1 in
  {| clock := clock w1;
     self := with_pending
               (<[requestKey := {| promise := p; timestamp := clock w1 |}]>
                  (pendingRequests l)) l;
     timers := timers w1; next_handle := next_handle w1;
     next_promise := next_promise w1; fetches := fetches w1;
     frames := frames w1 ++ [(p, requestKey)];
     handed := handed w1 ++ [(caller, p)] |}.

(** [makeRequest] from its entry to its first await (or return). *)
Definition makeRequest (caller : nat) (url : string) (options : option RequestInit)
    (w : World) : World :=
  let requestKey := generateRequestKey url options in
  match pendingRequests (self w) !! requestKey with
  | Some pendingRequest =>
      {| clock := clock w; self := self w; timers := timers w;
         next_handle := next_handle w; next_promise := next_promise w;
         fetches := fetches w; frames := frames w;
         handed := handed w ++ [(caller, promise pendingRequest)] |}
  | None =>
      let '(ok, l) := canMakeRequest (clock w) (self w) in
      let w1 := with_self l w in
      if ok then proceed caller url options w1
      else
        let waitTime := cooldownMs (config l) in
        setTimeout (ResumeRequest caller url options) waitTime w1
  end.

Definition run_task (j : Task) (w : World) : World :=
  match j with
  | ClearCooldown => with_self (with_cooldown false (self w)) w
  | ResumeRequest caller url options => proceed caller url options w
  end.

(** The [finally] of the frame that awaits promise [p]. *)
Definition settle (p : nat) (w : World) : World :=
  match filter (λ f, f.1 = p) (frames w) with
  | (_, requestKey) :: _ =>
      {| clock := clock w;
         self := with_pending (delete requestKey (pendingRequests (self w))) (self w);
         timers := timers w; next_handle := next_handle w;
         next_promise := next_promise w; fetches := fetches w;
         frames := filter (λ f, f.1 ≠ p) (frames w);
         handed := handed w |}
  | [] => w
  end.

(** The armed timer with handle [h]. *)
Definition armed (h : nat) (w : World) : option Timer :=
  head (filter (λ t, handle t = h) (timers w)).

(** What the event loop can do next. *)
Inductive Event :=
| Call (caller : nat) (url : string) (options : option RequestInit)
| Elapse (dt : Z)        (* the clock moves on by dt >= 0 *)
| Fire (h : nat)         (* timer h runs, when it is armed and due *)
| Settle (p : nat)       (* the network call behind promise p settles *)
| Sweep.                 (* the setInterval of the constructor *)

Definition step (w : World) (e : Event) : World :=
  match e with
  | Call caller url options => makeRequest caller url options w
  | Elapse dt =>
      {| clock := clock w + Z.max 0 dt; self := self w; timers := timers w;
         next_handle := next_handle w; next_promise := next_promise w;
         fetches := fetches w; frames := frames w; handed := handed w |}
  | Fire h =>
      match armed h w with
      | Some t =>
          if bool_decide (due t ≤ clock w) then
            run_task (job t)
              {| clock := clock w; self := self w;
                 timers := clearTimeout h (timers w);
                 next_handle := next_handle w; next_promise := next_promise w;
                 fetches := fetches w; frames := frames w; handed := handed w |}
          else w
      | None => w
      end
  | Settle p => settle p w
  | Sweep => with_self (cleanupRequestHistory (clock w) (self w)) w
  end.

Definition run (w : World) (es : list Event) : World := foldl step w es.

(** The number of recorded timestamps newer than [now - windowMs]. *)
Definition window_count (w : World) : Z :=
  let cutoff := clock w - windowMs (config (self w)) in
  Z.of_nat (length (filter (λ timestamp, cutoff < timestamp) (requestHistory (self w)))).

(** A call is blocked when no request with its key is pending and the
    admission check fails: it is the call that sleeps for the cooldown. *)
Definition blocked (w : World) (e : Event) : bool :=
  match e with
  | Call _ url options =>
      match pendingRequests (self w) !! generateRequestKey url options with
      | Some _ => false
      | None => negb (canMakeRequest (clock w) (self w)).1
      end
  | _ => false
  end.




(** The network calls issued for a request key. *)
Definition fetches_for (key : string) (w : World) : list Fetch :=
  filter (λ f, generateRequestKey (fetch_url f) (fetch_options f) = key) (fetches w).

(** The promises handed to a caller. *)
Definition promises_of (caller : nat) (w : World) : list nat :=
  (filter (λ h, h.1 = caller) (handed w)).*2.

(** *** The rest of the public surface *)

(** The two ingredients of the request key besides the URL:
    [options?.method || 'GET'], and the body when it is truthy. *)
Definition request_method (options : option RequestInit) : string :=
  let m := options ≫= method in
  if truthy m then default "GET" m else "GET".

Definition request_body (options : option RequestInit) : option string :=
  let b := options ≫= body in
  if truthy b then b else None.

(** What [getStatus] returns; the fields [canMakeRequest], [maxRequests],
    [isCooldown] and [pendingRequests] carry the prefix [status_]. *)
Record Status := {
  status_canMakeRequest : bool;
  requestsInWindow : nat;
  status_maxRequests : Z;
  status_isCooldown : bool;
  status_pendingRequests : nat;
  hasCoinGeckoAPIKey : bool;
}.

(** [getStatus()]: the history is pruned, then the object literal is
    evaluated field by field, [canMakeRequest()] first.  The environment
    variable is read again for the last field. *)
Definition getStatus (env : Env) (w : World) : World * Status :=
  let l0 := cleanupRequestHistory (clock w) (self w) in
  let '(ok, l1) := canMakeRequest (clock w) l0 in
  (with_self l1 w,
   {| status_canMakeRequest := ok;
      requestsInWindow := length (requestHistory l1);
      status_maxRequests := maxRequests (config l1);
      status_isCooldown := isCooldown l1;
      status_pendingRequests := size (pendingRequests l1);
      hasCoinGeckoAPIKey := truthy env |}).

Definition clearPendingRequests (w : World) : World :=
  with_self (with_pending ∅ (self w)) w.

(** [reset()]: the armed cooldown timer, if any, is cleared with it. *)
Definition reset (w : World) : World :=
  let l := self w in
  {| clock := clock w;
     self := {| pendingRequests := ∅; requestHistory := [];
                isCooldown := false; cooldownTimeout := None;
                config := config l |};
     timers := match cooldownTimeout l with
               | Some h => clearTimeout h (timers w)
               | None => timers w
               end;
     next_handle := next_handle w; next_promise := next_promise w;
     fetches := fetches w; frames := frames w; handed := handed w |}.

(** What can happen to the limiter: an event of the loop, or a call of one
    of the three methods above. *)
Inductive Action :=
| Do (e : Event)
| GetStatus (env : Env)
| ClearPendingRequests
| Reset.

Definition act (w : World) (a : Action) : World :=
  match a with
  | Do e => step w e
  | GetStatus env => (getStatus env w).1
  | ClearPendingRequests => clearPendingRequests w
  | Reset => reset w
  end.

Definition perform (w : World) (acts : list Action) : World := foldl act w acts.

(** The state with the timestamps that left the window dropped. *)
Definition prune (w : World) : World :=
  with_self (cleanupRequestHistory (clock w) (self w)) w.

(** Every pending entry belongs to a frame of [makeRequest] that still
    awaits its promise, and the promises of the frames are distinct. *)
Definition frames_track_pending (w : World) : Prop :=
  (∀ key pr, pendingRequests (self w) !! key = Some pr →
             (promise pr, key) ∈ frames w) ∧
  Forall (λ f, (f.1 < next_promise w)%nat) (frames w) ∧
  NoDup (frames w).*1.

(** The cooldown flag and its timer agree with the recorded timestamps. *)
Definition cooldown_covers_history (w : World) : Prop :=
  let cooldown := cooldownMs (config (self w)) in
  Forall (λ t, t ≤ clock w) (requestHistory (self w)) ∧
  Forall (λ tm, job tm = ClearCooldown →
                cooldownTimeout (self w) = Some (handle tm) ∧
                Forall (λ t, t + cooldown ≤ due tm) (requestHistory (self w)))
         (timers w) ∧
  (isCooldown (self w) = false →
   Forall (λ t, t + cooldown ≤ clock w) (requestHistory (self w))).

(** The handles of the armed timers are distinct and already used, and
    the handle kept in [cooldownTimeout] can only be that of a cooldown
    timer. *)
Definition handles_are_fresh (w : World) : Prop :=
  NoDup (handle <$> timers w) ∧
  Forall (λ tm, (handle tm < next_handle w)%nat) (timers w) ∧
  (∀ h, cooldownTimeout (self w) = Some h →
        (h < next_handle w)%nat ∧
        ∀ tm, tm ∈ timers w → handle tm = h → job tm = ClearCooldown).

End RateLimiter.

(** ** The metadata cache ([TokenMetadataCache]) *)

Module MetadataCache.
Import Js.

(** Numeric payload fields are carried, never computed with. *)
Definition number := Z.

Record TokenMetadata := {
  address : string;
  symbol : string;
  name : string;
  decimals : number;
  logoUrl : option string;
  isVerified : bool;
  isTestnet : option bool;
  coingeckoId : option string;
  marketCap : option number;
  price : option number;
  priceChange24h : option number;
  volume24h : option number;
  description : option string;
}.

Record CacheEntry := {
  data : TokenMetadata;
  timestamp : Z;
  expiresAt : Z;
}.

(** [started] is the field [timestamp] of the source's [BatchRequest]. *)
Record BatchRequest := {
  addresses : list string;
  promise : nat;
  started : Z;
}.

(** A call of [makeRateLimitedRequest]; the limiter is the environment of
    this class, and the outcome of the call arrives with its promise. *)
Record Request := {
  req_promise : nat;
  req_url : string;
  req_options : option RateLimiter.RequestInit;
}.

(** The body of the batch endpoint's answer: [{ tokens }], where the field
    may be missing. *)
Record BatchResponse := { tokens : option (list TokenMetadata) }.

(** The singleton and what it shares with its callers. *)
Record World := {
  clock : Z;                                      (* Date.now() *)
  heap : gmap nat (list string);                  (* the callers' string[] objects *)
  cache : gmap string CacheEntry;
  pendingBatchRequests : gmap string BatchRequest;
  next_promise : nat;
  requests : list Request;                        (* oldest first *)
}.

Definition CACHE_DURATION : Z := 10 * 60 * 1000.
Definition BATCH_TIMEOUT : Z := 5 * 1000.

Definition with_clock (t : Z) (w : World) : World :=
  {| clock := t; heap := heap w; cache := cache w;
     pendingBatchRequests := pendingBatchRequests w;
     next_promise := next_promise w; requests := requests w |}.

Definition with_heap (h : gmap nat (list string)) (w : World) : World :=
  {| clock := clock w; heap := h; cache := cache w;
     pendingBatchRequests := pendingBatchRequests w;
     next_promise := next_promise w; requests := requests w |}.

Definition with_cache (c : gmap string CacheEntry) (w : World) : World :=
  {| clock := clock w; heap := heap w; cache := c;
     pendingBatchRequests := pendingBatchRequests w;
     next_promise := next_promise w; requests := requests w |}.

Definition with_batches (b : gmap string BatchRequest) (w : World) : World :=
  {| clock := clock w; heap := heap w; cache := cache w;
     pendingBatchRequests := b;
     next_promise := next_promise w; requests := requests w |}.

(** The elements of the array behind a reference. *)
Definition read (r : nat) (w : World) : list string := default [] (heap w !! r).

(** A new array object, for an array literal. *)
Definition alloc (l : list string) (w : World) : World * nat :=
  let r := fresh (dom (heap w)) in
  (with_heap (<[r := l]> (heap w)) w, r).

Definition cleanupExpiredEntries (w : World) : World :=
  let now := clock w in
  with_cache (filter (λ kv, ¬ (now > expiresAt kv.2)) (cache w)) w.

Definition isCacheValid (now : Z) (entry : CacheEntry) : bool :=
  bool_decide (now < expiresAt entry).

(** [addresses.sort().join(',')]: the caller's array is sorted in place. *)
Definition generateBatchKey (addresses : nat) (w : World) : World * string :=
  let sorted := sort (read addresses w) in
  (with_heap (<[addresses := sorted]> (heap w)) w, join "," sorted).

(** [cached && this.isCacheValid(cached)], with [cached] the entry under
    the lower-cased address: the record served, if any. *)
Definition lookupValid (w : World) (address : string) : option TokenMetadata :=
  match cache w !! toLowerCase address with
  | Some cached => if isCacheValid (clock w) cached then Some (data cached) else None
  | None => None
  end.

Definition cacheToken (token : TokenMetadata) (w : World) : World :=
  let cacheKey := toLowerCase (address token) in
  let now := clock w in
  with_cache
    (<[cacheKey := {| data := token; timestamp := now;
                      expiresAt := now + CACHE_DURATION |}]> (cache w)) w.

(** [for (const token of tokens) this.cacheToken(token)] *)
Definition cacheTokens (tokens : list TokenMetadata) (w : World) : World :=
  foldl (λ w' token, cacheToken token w') w tokens.

(** [makeRateLimitedRequest(url, options)] up to the promise it returns. *)
Definition makeRateLimitedRequest (url : string)
    (options : option RateLimiter.RequestInit) (w : World) : World * nat :=
  let p := next_promise w in
  ({| clock := clock w; heap := heap w; cache := cache w;
      pendingBatchRequests := pendingBatchRequests w;
      next_promise := S p;
      requests := requests w ++ [{| req_promise := p; req_url := url;
                                    req_options := options |}] |}, p).

(** [JSON.stringify({ addresses })] *)
Definition batch_body (addresses : list string) : string :=
  "{" +:+ stringify "addresses" +:+ ":[" +:+ join "," (stringify <$> addresses) +:+ "]}".

(** [fetchBatchFromAPI] up to its await. *)
Definition fetchBatchFromAPI (addresses : list string) (w : World) : World * nat :=
  makeRateLimitedRequest "/api/tokens/batch-metadata"
    (Some {| RateLimiter.method := Some "POST";
             RateLimiter.headers := [("Content-Type", "application/json")];
             RateLimiter.body := Some (batch_body addresses) |}) w.

(** [fetchBatchFromAPI] after its await: what its own promise settles
    with, given what the rate-limited request settled with. *)
Definition fetchBatchFromAPI_settle (response : completion BatchResponse)
  : completion (list TokenMetadata) :=
  try_catch
    (bind response (λ r, Normal (default [] (tokens r))))
    (λ error, Normal []).

(** The loop of lines 107-116 over the elements of the array. *)
Definition partition_step (w : World) (acc : list string * list TokenMetadata)
    (address : string) : list string * list TokenMetadata :=
  match lookupValid w address with
  | Some d => (acc.1, acc.2 ++ [d])
  | None => (acc.1 ++ [address], acc.2)
  end.

Definition partition (w : World) (l : list string) : list string * list TokenMetadata :=
  foldl (partition_step w) ([], []) l.

(** Where [getBatchTokenMetadata] stands when its first stretch ends. *)
Inductive Started :=
| Done (result : list TokenMetadata)
    (* returned without awaiting *)
| Joined (p : nat)
    (* return pendingBatch.promise *)
| Awaiting (p : nat) (batchKey : string) (cachedResults : list TokenMetadata).
    (* at [await batchPromise], inside try *)

(** The pending batch that line 98 accepts. *)
Definition reusable (now : Z) (pendingBatch : option BatchRequest) : option BatchRequest :=
  match pendingBatch with
  | Some b => if bool_decide (now - started b < BATCH_TIMEOUT) then Some b else None
  | None => None
  end.

(** [getBatchTokenMetadata(addresses)] up to its first await or return;
    [addresses] is the reference of the caller's array. *)
Definition getBatchTokenMetadata (addresses : nat) (w : World) : World * Started :=
  if bool_decide (length (read addresses w) = 0%nat) then (w, Done [])
  else
    let now := clock w in
    let '(w1, batchKey) := generateBatchKey addresses w in
    match reusable now (pendingBatchRequests w1 !! batchKey) with
    | Some pendingBatch => (w1, Joined (promise pendingBatch))
    | None =>
        let '(uncachedAddresses, cachedResults) := partition w1 (read addresses w1) in
        if bool_decide (length uncachedAddresses = 0%nat) then (w1, Done cachedResults)
        else
          let '(w2, batchPromise) := fetchBatchFromAPI uncachedAddresses w1 in
          (with_batches
             (<[batchKey := {| addresses := uncachedAddresses;
                               promise := batchPromise;
                               started := now |}]> (pendingBatchRequests w2)) w2,
           Awaiting batchPromise batchKey cachedResults)
    end.

(** [try { ... } finally { this.pendingBatchRequests.delete(batchKey) }] *)
Definition try_finally_delete {A} (batchKey : string) (body : World * completion A)
  : World * completion A :=
  (with_batches (delete batchKey (pendingBatchRequests body.1)) body.1, body.2).

(** Lines 134-150: the stretch after [await batchPromise]. *)
Definition getBatchTokenMetadata_resume (batchKey : string)
    (cachedResults : list TokenMetadata)
    (settled : completion (list TokenMetadata)) (w : World)
  : World * completion (list TokenMetadata) :=
  try_finally_delete batchKey
    match settled with
    | Normal apiResults =>
        (cacheTokens apiResults w, Normal (cachedResults ++ apiResults))
    | Throw e => (w, Throw e)
    end.

(** What a call of [getBatchTokenMetadata] resolves or rejects with, once
    the rate-limited request of the batch it waits for has settled. *)
Definition getBatchTokenMetadata_outcome (s : Started)
    (response : completion BatchResponse) (w : World)
  : World * completion (list TokenMetadata) :=
  match s with
  | Done result => (w, Normal result)
  | Joined _ => (w, fetchBatchFromAPI_settle response)
  | Awaiting _ batchKey cachedResults =>
      getBatchTokenMetadata_resume batchKey cachedResults
        (fetchBatchFromAPI_settle response) w
  end.

(** Where [getTokenMetadata] stands when its first stretch ends. *)
Inductive StartedOne :=
| Hit (d : TokenMetadata)                 (* return cached.data *)
| Delegated (array : nat) (s : Started).  (* await this.getBatchTokenMetadata([address]) *)

Definition getTokenMetadata (address : string) (w : World) : World * StartedOne :=
  match lookupValid w address with
  | Some d => (w, Hit d)
  | None =>
      let '(w1, array) := alloc [address] w in
      let '(w2, s) := getBatchTokenMetadata array w1 in
      (w2, Delegated array s)
  end.

(** Line 86: [result.length > 0 ? result[0] : null] *)
Definition getTokenMetadata_resume (result : list TokenMetadata) : option TokenMetadata :=
  if bool_decide (0 < length result)%nat then result !! 0%nat else None.

Definition getTokenMetadata_outcome (s : StartedOne)
    (response : completion BatchResponse) (w : World)
  : World * completion (option TokenMetadata) :=
  match s with
  | Hit d => (w, Normal (Some d))
  | Delegated _ b =>
      let '(w1, r) := getBatchTokenMetadata_outcome b response w in
      (w1, bind r (λ result, Normal (getTokenMetadata_resume result)))
  end.

(** [encodeURIComponent] on a UTF-8 string: the unreserved characters are
    kept, every other byte is percent-encoded. *)
Definition unreserved (c : ascii) : bool :=
  let n := N_of_ascii c in
  (((65 <=? n) && (n <=? 90)) || ((97 <=? n) && (n <=? 122)) || ((48 <=? n) && (n <=? 57))
   || bool_decide (n ∈ [45; 95; 46; 33; 126; 42; 39; 40; 41]))%N.

Definition upper_hex (n : N) : ascii :=
  if (n <? 10)%N then ascii_of_N (48 + n) else ascii_of_N (55 + n).

Fixpoint encodeURIComponent (s : string) : string :=
  match s with
  | EmptyString => EmptyString
  | String c s' =>
      if unreserved c then String c (encodeURIComponent s')
      else
        let n := N_of_ascii c in
        String "%" (String (upper_hex (n / 16)) (String (upper_hex (n mod 16))
          (encodeURIComponent s')))
  end.

(** [searchTokens(query, limit = 20)] up to its await; an integer limit. *)
Definition searchTokens (query : string) (limit : option Z) (w : World) : World * nat :=
  let limit := default 20 limit in
  makeRateLimitedRequest
    ("/api/tokens/search?query=" +:+ encodeURIComponent query +:+ "&limit=" +:+ pretty limit)
    None w.

(** [searchTokens] after its await, the whole of it inside [try]. *)
Definition searchTokens_resume (settled : completion (list TokenMetadata)) (w : World)
  : World * completion (list TokenMetadata) :=
  match settled with
  | Normal response => (cacheTokens response w, Normal response)
  | Throw error => (w, Normal [])        (* catch (error) { return [] } *)
  end.

(** The selection of the specification: the record of the result whose
    address field is the requested address. *)
Definition spec_match_by_address (requested : string) (result : list TokenMetadata)
  : option TokenMetadata :=
  head (filter (λ t, address t = requested) result).

(** The signature of the specification: the sorted, deduplicated list of
    the addresses left after the valid cache hits are taken out. *)
Definition spec_batch_signature (w : World) (l : list string) : string :=
  join "," (sort (remove_dups (partition w l).1)).

(** *** The rest of the public surface *)

(** Both maps are emptied; batches in flight go on and their callers are
    not told. *)
Definition clearCache (w : World) : World :=
  with_batches ∅ (with_cache ∅ w).

Definition clearExpiredEntries (w : World) : World := cleanupExpiredEntries w.

Record CacheStats := {
  totalEntries : nat;
  validEntries : nat;
  expiredEntries : nat;
  pendingBatches : nat;
}.

(** The loop of [getCacheStats] over the values of the cache: the pair of
    counters (valid, expired). *)
Definition count_entry (now : Z) (key : string) (entry : CacheEntry)
    (counters : nat * nat) : nat * nat :=
  if bool_decide (now < expiresAt entry)
  then (S counters.1, counters.2)
  else (counters.1, S counters.2).

Definition getCacheStats (w : World) : CacheStats :=
  let now := clock w in
  let counters := map_fold (count_entry now) (0%nat, 0%nat) (cache w) in
  {| totalEntries := size (cache w);
     validEntries := counters.1;
     expiredEntries := counters.2;
     pendingBatches := size (pendingBatchRequests w) |}.

(** [preloadPopularTokens] up to its await. *)
Definition preloadPopularTokens (w : World) : World * nat :=
  makeRateLimitedRequest "/api/tokens/popular?limit=20" None w.

(** [preloadPopularTokens] after its await, the whole of it inside [try];
    the promise resolves with [undefined]. *)
Definition preloadPopularTokens_resume (settled : completion BatchResponse) (w : World)
  : World * completion unit :=
  match settled with
  | Normal response => (cacheTokens (default [] (tokens response)) w, Normal ())
  | Throw error => (w, Normal ())        (* catch (error) { console.error } *)
  end.

End MetadataCache.

(** ** The manual token registry ([lib/manual-tokens.ts]) *)

Module ManualTokens.
Import Js.

Record ManualTokenInfo := {
  address : string;
  symbol : string;
  name : string;
  decimals : Z;
  logoUrl : option string;
  isVerified : bool;
  isTestnet : bool;
  description : option string;
  addedBy : string;
  addedAt : string;
}.

(** [Omit<ManualTokenInfo, 'addedBy' | 'addedAt'>] *)
Record NewToken := {
  new_address : string;
  new_symbol : string;
  new_name : string;
  new_decimals : Z;
  new_logoUrl : option string;
  new_isVerified : bool;
  new_isTestnet : bool;
  new_description : option string;
}.

(** [Partial<ManualTokenInfo>]: [None] is a key that is not given.  For the
    two optional fields a given key may hold [undefined]. *)
Record TokenUpdates := {
  set_address : option string;
  set_symbol : option string;
  set_name : option string;
  set_decimals : option Z;
  set_logoUrl : option (option string);
  set_isVerified : option bool;
  set_isTestnet : option bool;
  set_description : option (option string);
  set_addedBy : option string;
  set_addedAt : option string;
}.

(** The values of [TOKEN_CATEGORIES]. *)
Inductive TokenCategory := NATIVE | STABLECOIN | DEFI | GOVERNANCE | UTILITY | CUSTOM.

#[global] Instance TokenCategory_eq_dec : EqDecision TokenCategory.
Proof. solve_decision. Defined.

(** [{ ...token, category }] *)
Record CategorizedTokenInfo := {
  info : ManualTokenInfo;
  category : TokenCategory;
}.

(** The list the module starts with; [loaded] is the [toISOString()] of the
    time the module is loaded. *)
Definition MANUAL_TOKENS (loaded : string) : list ManualTokenInfo :=
  [ {| address := "0xaE3D01B14727dB642d1B7A40460faE24d7182d10";
       symbol := "SG"; name := "SG Coin"; decimals := 6;
       logoUrl := Some "https://cryptologos.cc/logos/usd-coin-usdc-logo.png";
       isVerified := true; isTestnet := true;
       description := Some "SG Coin testnet token";
       addedBy := "admin"; addedAt := loaded |};
    {| address := "0x825DE2180C8F953c6A0F117CCBAD26700D302E02";
       symbol := "USDT"; name := "Tether USD"; decimals := 6;
       logoUrl := Some "https://cryptologos.cc/logos/tether-usdt-logo.png";
       isVerified := true; isTestnet := true;
       description := Some "Tether USD testnet token";
       addedBy := "admin"; addedAt := loaded |};
    {| address := "0x31d0220469e10c4E71834a79b1f276d740d3768F";
       symbol := "USDC"; name := "USDC"; decimals := 18;
       logoUrl := Some "https://cryptologos.cc/logos/uniswap-uni-logo.png";
       isVerified := true; isTestnet := true;
       description := Some "USDC testnet token";
       addedBy := "admin"; addedAt := loaded |} ].

Definition getTokenCategory (symbol name : string) : TokenCategory :=
  let symbolUpper := toUpperCase symbol in
  let nameUpper := toUpperCase name in
  if bool_decide (symbolUpper = "ETH") || includes nameUpper "ETHEREUM" then NATIVE
  else if includes symbolUpper "USD" || includes symbolUpper "USDC" ||
          includes symbolUpper "USDT" || includes symbolUpper "DAI" ||
          includes nameUpper "STABLE" || includes nameUpper "USD" then STABLECOIN
  else if includes symbolUpper "UNI" || includes symbolUpper "AAVE" ||
          includes symbolUpper "COMP" || includes symbolUpper "LINK" ||
          includes nameUpper "DEFI" || includes nameUpper "PROTOCOL" then DEFI
  else if includes symbolUpper "GOV" || includes symbolUpper "VOTE" ||
          includes nameUpper "GOVERNANCE" || includes nameUpper "VOTING" then GOVERNANCE
  else UTILITY.

Definition categorize (token : ManualTokenInfo) : CategorizedTokenInfo :=
  {| info := token; category := getTokenCategory (symbol token) (name token) |}.

Definition getAllManualTokens (tokens : list ManualTokenInfo) : list CategorizedTokenInfo :=
  categorize <$> tokens.

Definition getTokensByCategory (wanted : TokenCategory) (tokens : list ManualTokenInfo)
  : list CategorizedTokenInfo :=
  filter (λ token, category token = wanted) (categorize <$> tokens).

Definition searchManualTokens (query : string) (tokens : list ManualTokenInfo)
  : list CategorizedTokenInfo :=
  let searchTerm := toLowerCase query in
  filter (λ token,
            includes (toLowerCase (symbol (info token))) searchTerm ||
            includes (toLowerCase (name (info token))) searchTerm ||
            includes (toLowerCase (address (info token))) searchTerm = true)
         (categorize <$> tokens).

(** [t.address.toLowerCase() === address.toLowerCase()] *)
Definition has_address (wanted : string) (t : ManualTokenInfo) : Prop :=
  toLowerCase (address t) = toLowerCase wanted.

#[global] Instance has_address_dec wanted t : Decision (has_address wanted t).
Proof. unfold has_address. apply _. Defined.

(** [addManualToken(token)]; [now] is [new Date().toISOString()]. *)
Definition addManualToken (token : NewToken) (now : string)
    (tokens : list ManualTokenInfo) : list ManualTokenInfo :=
  let newToken :=
    {| address := new_address token; symbol := new_symbol token;
       name := new_name token; decimals := new_decimals token;
       logoUrl := new_logoUrl token; isVerified := new_isVerified token;
       isTestnet := new_isTestnet token; description := new_description token;
       addedBy := "admin"; addedAt := now |} in
  let exists_ := bool_decide (Exists (has_address (new_address token)) tokens) in
  if negb exists_ then tokens ++ [newToken] else tokens.

(** [removeManualToken(address)]: the list left and the boolean returned. *)
Definition removeManualToken (wanted : string) (tokens : list ManualTokenInfo)
  : list ManualTokenInfo * bool :=
  match list_find (has_address wanted) tokens with
  | Some (index, _) => (delete index tokens, true)
  | None => (tokens, false)
  end.

(** [{ ...token, ...updates }] *)
Definition apply_updates (token : ManualTokenInfo) (updates : TokenUpdates)
  : ManualTokenInfo :=
  {| address := default (address token) (set_address updates);
     symbol := default (symbol token) (set_symbol updates);
     name := default (name token) (set_name updates);
     decimals := default (decimals token) (set_decimals updates);
     logoUrl := default (logoUrl token) (set_logoUrl updates);
     isVerified := default (isVerified token) (set_isVerified updates);
     isTestnet := default (isTestnet token) (set_isTestnet updates);
     description := default (description token) (set_description updates);
     addedBy := default (addedBy token) (set_addedBy updates);
     addedAt := default (addedAt token) (set_addedAt updates) |}.

(** [updateManualToken(address, updates)] *)
Definition updateManualToken (wanted : string) (updates : TokenUpdates)
    (tokens : list ManualTokenInfo) : list ManualTokenInfo * bool :=
  match list_find (has_address wanted) tokens with
  | Some (index, token) => (<[index := apply_updates token updates]> tokens, true)
  | None => (tokens, false)
  end.

Definition getManualTokenByAddress (wanted : string) (tokens : list ManualTokenInfo)
  : option CategorizedTokenInfo :=
  match list_find (has_address wanted) tokens with
  | Some (_, token) => Some (categorize token)
  | None => None
  end.

Definition isValidTokenAddress (address : string) : bool := is_address address.

(** No two tokens of the list have the same address up to letter case. *)
Definition distinct_addresses (tokens : list ManualTokenInfo) : Prop :=
  NoDup ((λ t, toLowerCase (address t)) <$> tokens).

End ManualTokens.

(** ** The token API service ([lib/token-api.ts]) *)

Module TokenApi.
Import Js.

(** [TokenInfo] of [lib/token-management]. *)
Record TokenInfo := {
  address : string;
  symbol : string;
  name : string;
  decimals : Z;
  logoUrl : option string;
  isVerified : bool;
  isTestnet : option bool;
  coingeckoId : option string;
  marketCap : option Z;
  price : option Z;
}.

(** The two maps of the singleton. *)
Record Service := {
  cache : gmap string TokenInfo;
  cacheExpiry : gmap string Z;
}.

Definition CACHE_DURATION : Z := 5 * 60 * 1000.

(** Truthiness of [expiry]: present and not zero. *)
Definition truthy_number (n : option Z) : bool :=
  match n with
  | Some x => bool_decide (x ≠ 0)
  | None => false
  end.

(** [getCachedToken(address)] at time [now]: the service left and the value
    returned. *)
Definition getCachedToken (now : Z) (address : string) (s : Service)
  : Service * option TokenInfo :=
  let cached := cache s !! address in
  let expiry := cacheExpiry s !! address in
  if bool_decide (is_Some cached) && truthy_number expiry
     && bool_decide (now < default 0 expiry)
  then (s, cached)
  else if truthy_number expiry && bool_decide (now >= default 0 expiry)
  then ({| cache := delete address (cache s);
           cacheExpiry := delete address (cacheExpiry s) |}, None)
  else (s, None).

Definition cacheToken (now : Z) (address : string) (token : TokenInfo) (s : Service)
  : Service :=
  {| cache := <[address := token]> (cache s);
     cacheExpiry := <[address := now + CACHE_DURATION]> (cacheExpiry s) |}.

Definition clearCache (s : Service) : Service :=
  {| cache := ∅; cacheExpiry := ∅ |}.

(** What the [fetch] of [getTokenByAddress] and the reading of its body can
    come to. *)
Inductive Fetched :=
| NetworkError                       (* fetch rejects *)
| NotOk                              (* response.ok is false *)
| BadBody                            (* response.json() rejects *)
| Body (token : option TokenInfo).   (* data.token, possibly null *)

(** Where [getTokenByAddress] stands when its first stretch ends. *)
Inductive Lookup :=
| Cached (token : TokenInfo)         (* return cached *)
| Fetching (url : string).           (* await fetch(url) *)

Definition percent_hex (n : N) : ascii :=
  if (n <? 10)%N then ascii_of_N (48 + n) else ascii_of_N (55 + n).

Definition uri_unreserved (c : ascii) : bool :=
  let n := N_of_ascii c in
  (((65 <=? n) && (n <=? 90)) || ((97 <=? n) && (n <=? 122)) || ((48 <=? n) && (n <=? 57))
   || bool_decide (n ∈ [45; 95; 46; 33; 126; 42; 39; 40; 41]))%N.

(** [encodeURIComponent] on a UTF-8 string. *)
Fixpoint encodeURIComponent (s : string) : string :=
  match s with
  | EmptyString => EmptyString
  | String c s' =>
      if uri_unreserved c then String c (encodeURIComponent s')
      else
        let n := N_of_ascii c in
        String "%" (String (percent_hex (n / 16)) (String (percent_hex (n mod 16))
          (encodeURIComponent s')))
  end.

Definition getTokenByAddress (now : Z) (address : string) (s : Service)
  : Service * Lookup :=
  match getCachedToken now address s with
  | (s', Some cached) => (s', Cached cached)
  | (s', None) =>
      (s', Fetching ("/api/tokens/metadata?address=" +:+ encodeURIComponent address))
  end.

(** [getTokenByAddress] after its awaits, inside [try]; [now] is the time
    at which the body has been read. *)
Definition getTokenByAddress_resume (now : Z) (address : string) (fetched : Fetched)
    (s : Service) : Service * option TokenInfo :=
  match fetched with
  | NetworkError => (s, None)          (* catch: return null *)
  | NotOk => (s, None)
  | BadBody => (s, None)               (* catch: return null *)
  | Body (Some token) => (cacheToken now address token s, Some token)
  | Body None => (s, None)
  end.

(** Every key has its expiry and every expiry its token. *)
Definition paired (s : Service) : Prop := dom (cache s) = dom (cacheExpiry s).

End TokenApi.

(** ** Concrete runs, used to exercise the two models *)

Module Scenarios.
Import Js.

Module Limiter.
Import RateLimiter.

(** A burst of 31 different requests at time 0, then the cooldown timer
    and the 30 sleepers run at time 2000. *)
Definition burst_url (i : nat) : string := "/api/tokens/search?query=" +:+ pretty i.

Definition burst : list Event :=
  ((λ i, Call i (burst_url i) None) <$> seq 0 31)
    ++ [Elapse 2000] ++ (Fire <$> seq 1 31).

(** Requests spaced by the cooldown, the last one issued twice. *)
Definition paced : list Event :=
  [Call 0 "/a" None; Elapse 2000; Fire 1; Call 1 "/b" None; Call 2 "/b" None].

(** Two identical requests issued while the cooldown of a third one is
    running; then the cooldown timer and the two sleepers run. *)
Definition twins : list Event :=
  [Call 0 "/a" None; Call 1 "/b" None; Call 2 "/b" None;
   Elapse 2000; Fire 1; Fire 2; Fire 3].
End Limiter.

Module Cache.
Import MetadataCache.

Definition token (a : string) : TokenMetadata :=
  {| address := a; symbol := "TKN"; name := "Token"; decimals := 18;
     logoUrl := None; isVerified := true; isTestnet := None;
     coingeckoId := None; marketCap := None; price := None;
     priceChange24h := None; volume24h := None; description := None |}.

(** At time 0 the record of 0xA is written; at time 1000 two callers
    hold the arrays 0 and 1, and a third one the array 2. *)
Definition cold : World :=
  {| clock := 0;
     heap := {[ 0%nat := ["0xb"; "0xA"]; 1%nat := ["0xA"; "0xb"];
                2%nat := ["0xb"; "0xA"; "0xb"] ]};
     cache := ∅; pendingBatchRequests := ∅;
     next_promise := 0; requests := [] |}.

Definition warm : World := with_clock 1000 (cacheToken (token "0xA") cold).
End Cache.

Module Api.
Import TokenApi.

Definition sample (a : string) : TokenInfo :=
  {| address := a; symbol := "TKN"; name := "Token"; decimals := 18;
     logoUrl := None; isVerified := true; isTestnet := None;
     coingeckoId := None; marketCap := None; price := None |}.

Definition empty : Service := {| cache := ∅; cacheExpiry := ∅ |}.
End Api.

End Scenarios.

(** ** Properties of the rate limiter *)

Module RateLimiterFacts.
Import Js RateLimiter Scenarios.Limiter.

Lemma hasApiKey_true (env : Env) :
  hasApiKey env = true ↔ ∃ c key, env = Some (String c key).
Proof.
  unfold hasApiKey, truthy. split.
  - destruct env as [[|c key]|]; try discriminate. eauto.
  - intros (c & key & ->). reflexivity.
Qed.

Lemma hasApiKey_false (env : Env) :
  hasApiKey env = false ↔ env = None ∨ env = Some "".
Proof.
  unfold hasApiKey, truthy. split.
  - destruct env as [[|c key]|]; try discriminate; auto.
  - intros [-> | ->]; reflexivity.
Qed.

(** C8: without a credential the cap is 30, with one it is 100; the
    profile with a credential has the strictly larger cap and the strictly
    shorter cooldown. *)
Theorem credential_profile (without with_key : Env) :
  hasApiKey without = false →
  hasApiKey with_key = true →
  maxRequests (mkConfig without) = 30 ∧
  maxRequests (mkConfig with_key) = 100 ∧
  maxRequests (mkConfig without) < maxRequests (mkConfig with_key) ∧
  cooldownMs (mkConfig with_key) < cooldownMs (mkConfig without).
Proof.
  intros Hno Hyes. unfold mkConfig, getMaxRequests, getCooldownMs. simpl.
  rewrite Hno, Hyes. lia.
Qed.

Lemma credential_profile_witness :
  maxRequests (mkConfig None) = 30 ∧
  maxRequests (mkConfig (Some "CG-demo-key")) = 100 ∧
  maxRequests (mkConfig None) < maxRequests (mkConfig (Some "CG-demo-key")) ∧
  cooldownMs (mkConfig (Some "CG-demo-key")) < cooldownMs (mkConfig None).
Proof. apply (credential_profile None (Some "CG-demo-key")); reflexivity. Defined.

(** *** The sliding window *)

Lemma newer_idem (c : Z) (l : list Z) :
  filter (λ t, c < t) (filter (λ t, c < t) l) = filter (λ t, c < t) l.
Proof.
  induction l as [|x l IH]; [done|].
  rewrite (filter_cons _ x l). destruct (decide (c < x)) as [Hx|Hx]; [|done].
  rewrite filter_cons. destruct (decide (c < x)); [|done]. by rewrite IH.
Qed.






Lemma fetches_proceed caller url options w :
  fetches (proceed caller url options w)
  = fetches w ++ [{| fetch_promise := next_promise w; fetch_url := url;
                     fetch_options := options |}].
Proof. reflexivity. Qed.

(** The configuration is fixed when the limiter is built. *)
Lemma config_step (w : World) (e : Event) :
  config (self (step w e)) = config (self w).
Proof.
  destruct e as [caller url options|dt|h|p|]; simpl; try done.
  - unfold makeRequest.
    destruct (pendingRequests (self w) !! _); [done|].
    unfold canMakeRequest. destruct (isCooldown (self w)); simpl; [done|].
    case_bool_decide; done.
  - destruct (armed h w) as [t|]; [|done].
    case_bool_decide; [|done]. destruct (job t); done.
  - unfold settle. destruct (filter _ (frames w)) as [|[? ?] ?]; done.
Qed.

Lemma config_run (w : World) (es : list Event) :
  config (self (run w es)) = config (self w).
Proof.
  revert w. induction es as [|e es IH]; intros w; [done|].
  simpl. fold (run (step w e) es). by rewrite IH, config_step.
Qed.


Lemma Forall_filter_keep {A} (P Q : A → Prop) `{∀ x, Decision (Q x)} (l : list A) :
  Forall P l → Forall P (filter Q l).
Proof.
  rewrite !Forall_forall. intros HP x Hx.
  apply list_elem_of_filter in Hx as [_ Hx]. auto.
Qed.

Lemma armed_elem_of (h : nat) (w : World) (t : Timer) :
  armed h w = Some t → t ∈ timers w ∧ handle t = h.
Proof.
  unfold armed. intros Hh.
  assert (Hin : t ∈ filter (λ t, handle t = h) (timers w)).
  { destruct (filter _ (timers w)) as [|t' ts]; simplify_eq/=. left. }
  apply list_elem_of_filter in Hin as [? ?]. done.
Qed.








(** *** Deduplication *)

(** A call whose key is registered is handed the registered promise:
    nothing is sent, and neither the window nor the cooldown is read. *)
Lemma pending_request_is_shared (w : World) caller url options pr :
  pendingRequests (self w) !! generateRequestKey url options = Some pr →
  let w' := step w (Call caller url options) in
  fetches w' = fetches w ∧ self w' = self w ∧ timers w' = timers w ∧
  handed w' = handed w ++ [(caller, promise pr)].
Proof. intros Hp. simpl. unfold makeRequest. rewrite Hp. done. Qed.

(** When the first of two identical calls passes the admission check, the
    second one joins it: one network call, one promise for both. *)
Lemma admitted_twins_share (w : World) c1 c2 url options :
  pendingRequests (self w) !! generateRequestKey url options = None →
  blocked w (Call c1 url options) = false →
  let w' := run w [Call c1 url options; Call c2 url options] in
  fetches w' = fetches w ++
    [{| fetch_promise := next_promise w; fetch_url := url; fetch_options := options |}] ∧
  handed w' = handed w ++ [(c1, next_promise w); (c2, next_promise w)].
Proof.
  intros Hnone Hadm. simpl in Hadm. rewrite Hnone in Hadm.
  apply negb_false_iff in Hadm.
  destruct (canMakeRequest (clock w) (self w)) as [ok l] eqn:Hcan.
  simpl in Hadm. subst ok.
  assert (Hfirst : step w (Call c1 url options)
                   = proceed c1 url options (with_self l w)).
  { simpl. unfold makeRequest. by rewrite Hnone, Hcan. }
  change (run w [Call c1 url options; Call c2 url options])
    with (step (step w (Call c1 url options)) (Call c2 url options)).
  rewrite Hfirst.
  destruct (pending_request_is_shared (proceed c1 url options (with_self l w))
              c2 url options {| promise := next_promise w; timestamp := clock w |})
    as (Hf & _ & _ & Hh).
  { simpl. apply lookup_insert_eq. }
  cbv zeta. rewrite Hf, Hh. simpl. split; [done|]. by rewrite <- app_assoc.
Qed.

(** C2 at its failing input: two identical calls issued while a cooldown
    is running both sleep before either registers, and each one then sends
    its own network call and receives its own promise. *)
Theorem sleeping_twins_fetch_twice :
  let w := run (boot None 0) twins in
  fetches_for (generateRequestKey "/b" None) w
  = [{| fetch_promise := 1; fetch_url := "/b"; fetch_options := None |};
     {| fetch_promise := 2; fetch_url := "/b"; fetch_options := None |}] ∧
  promises_of 1 w = [1%nat] ∧ promises_of 2 w = [2%nat].
Proof. vm_compute. done. Qed.

End RateLimiterFacts.

(** ** Properties of the metadata cache *)

Module MetadataCacheFacts.
Import Js MetadataCache Scenarios.Cache.

(** *** The partition loop *)

Lemma partition_from (w : World) (l uncached : list string)
    (cached : list TokenMetadata) :
  foldl (partition_step w) (uncached, cached) l
  = (uncached ++ filter (λ a, lookupValid w a = None) l,
     cached ++ omap (lookupValid w) l).
Proof.
  revert uncached cached. induction l as [|a l IH]; intros uncached cached; simpl.
  - by rewrite !app_nil_r.
  - rewrite filter_cons. unfold partition_step at 2.
    destruct (lookupValid w a) as [d|] eqn:Ha; simpl; rewrite IH;
      by rewrite <- app_assoc.
Qed.

(** The loop sends every address with a valid entry to the cached results
    and every other address to the uncached list, in the order of the
    array. *)
Lemma partition_spec (w : World) (l : list string) :
  partition w l
  = (filter (λ a, lookupValid w a = None) l, omap (lookupValid w) l).
Proof. unfold partition. by rewrite partition_from. Qed.

(** *** The first stretch of getBatchTokenMetadata, case by case *)

Lemma getBatch_empty (w : World) (addresses : nat) :
  read addresses w = [] → getBatchTokenMetadata addresses w = (w, Done []).
Proof. intros Hl. unfold getBatchTokenMetadata. by rewrite Hl. Qed.

Lemma getBatch_nonempty (w : World) (addresses : nat) (l : list string) :
  heap w !! addresses = Some l → l ≠ [] →
  let w1 := with_heap (<[addresses := sort l]> (heap w)) w in
  let batchKey := join "," (sort l) in
  let uncached := filter (λ a, lookupValid w a = None) (sort l) in
  let cached := omap (lookupValid w) (sort l) in
  getBatchTokenMetadata addresses w =
  match reusable (clock w) (pendingBatchRequests w !! batchKey) with
  | Some pendingBatch => (w1, Joined (promise pendingBatch))
  | None =>
      if bool_decide (length uncached = 0%nat) then (w1, Done cached)
      else
        (with_batches
           (<[batchKey := {| addresses := uncached; promise := next_promise w;
                             started := clock w |}]> (pendingBatchRequests w))
           (fetchBatchFromAPI uncached w1).1,
         Awaiting (next_promise w) batchKey cached)
  end.
Proof.
  intros Hl Hne. cbv zeta. unfold getBatchTokenMetadata, read.
  rewrite Hl. simpl.
  rewrite bool_decide_eq_false_2 by (destruct l; [done | simpl; lia]).
  unfold generateBatchKey, read. rewrite Hl. simpl.
  destruct (reusable _ _); [done|].
  rewrite lookup_insert_eq. simpl.
  rewrite partition_spec. done.
Qed.

(** The later stretches leave the callers' arrays alone. *)
Lemma heap_cacheTokens (tokens : list TokenMetadata) (w : World) :
  heap (cacheTokens tokens w) = heap w.
Proof.
  unfold cacheTokens. revert w.
  induction tokens as [|t ts IH]; intros w; simpl; [done|]. by rewrite IH.
Qed.

Lemma heap_resume batchKey cachedResults settled (w : World) :
  heap (getBatchTokenMetadata_resume batchKey cachedResults settled w).1 = heap w.
Proof. destruct settled; simpl; [apply heap_cacheTokens | done]. Qed.

(** C9: a call with a non-empty array sorts that array in place: when the
    call has returned its promise the caller's array holds the sorted
    permutation of its elements, and the rest of the call does not
    touch it again. *)
Theorem caller_array_sorted_in_place (w : World) (addresses : nat) (l : list string) :
  heap w !! addresses = Some l → l ≠ [] →
  let w' := (getBatchTokenMetadata addresses w).1 in
  heap w' !! addresses = Some (sort l) ∧
  Sorted str_le (sort l) ∧ sort l ≡ₚ l ∧
  ∀ batchKey cachedResults settled,
    heap (getBatchTokenMetadata_resume batchKey cachedResults settled w').1
    !! addresses = Some (sort l).
Proof.
  intros Hl Hne w'.
  assert (Hw' : heap w' !! addresses = Some (sort l)).
  { subst w'. rewrite (getBatch_nonempty w addresses l Hl Hne).
    destruct (reusable _ _); simpl; [apply lookup_insert_eq|].
    case_bool_decide; simpl; apply lookup_insert_eq. }
  repeat split.
  - done.
  - apply Sorted_merge_sort, _.
  - apply merge_sort_Permutation.
  - intros. by rewrite heap_resume.
Qed.

Lemma caller_array_sorted_in_place_witness :
  heap cold !! 0%nat = Some ["0xb"; "0xA"] ∧
  heap (getBatchTokenMetadata 0 cold).1 !! 0%nat = Some ["0xA"; "0xb"].
Proof.
  split; [reflexivity|].
  apply (caller_array_sorted_in_place cold 0 ["0xb"; "0xA"]); [reflexivity | discriminate].
Defined.

(** *** Merging, joining and the batch key *)

Lemma settle_never_rejects (response : completion BatchResponse) :
  ∃ apiResults, fetchBatchFromAPI_settle response = Normal apiResults.
Proof. destruct response; simpl; eauto. Qed.

(** The call that creates the batch resolves with its cached results
    followed by what the batch fetch resolved with. *)
Lemma creator_merges (w later : World) (addresses : nat) (l : list string)
    p batchKey cachedResults (response : completion BatchResponse) apiResults :
  heap w !! addresses = Some l → l ≠ [] →
  (getBatchTokenMetadata addresses w).2 = Awaiting p batchKey cachedResults →
  fetchBatchFromAPI_settle response = Normal apiResults →
  cachedResults = omap (lookupValid w) (sort l) ∧
  (getBatchTokenMetadata_outcome (Awaiting p batchKey cachedResults) response later).2
  = Normal (cachedResults ++ apiResults).
Proof.
  intros Hl Hne Hs Hr. rewrite (getBatch_nonempty w addresses l Hl Hne) in Hs.
  simpl. rewrite Hr. simpl. split; [|done].
  destruct (reusable _ _); [done|]. case_bool_decide; [done|].
  by injection Hs as _ _ <-.
Qed.

(** C3 at its failing input: the record of 0xA is a valid cache hit and
    0xb is not cached.  The first caller of [0xb, 0xA] creates the batch and
    receives both records; the second caller joins the pending batch and
    receives the fetched record only, its cache hit is dropped. *)
Theorem joiner_loses_cached_hit :
  let first := getBatchTokenMetadata 0 warm in
  let second := getBatchTokenMetadata 1 first.1 in
  let response := Normal {| tokens := Some [token "0xb"] |} in
  lookupValid warm "0xA" = Some (token "0xA") ∧
  lookupValid warm "0xb" = None ∧
  first.2 = Awaiting 0 "0xA,0xb" [token "0xA"] ∧
  second.2 = Joined 0 ∧
  (getBatchTokenMetadata_outcome first.2 response second.1).2
  = Normal [token "0xA"; token "0xb"] ∧
  (getBatchTokenMetadata_outcome second.2 response second.1).2
  = Normal [token "0xb"].
Proof. vm_compute. done. Qed.

(** C4, as stated, fails: for the array [0xb, 0xA, 0xb] with 0xA cached,
    the batch is registered under the key of the three elements, not
    under the signature of the deduplicated uncached list. *)
Lemma batch_key_keeps_hits_and_duplicates :
  let started := getBatchTokenMetadata 2 warm in
  spec_batch_signature warm (read 2 warm) = "0xb" ∧
  started.2 = Awaiting 0 "0xA,0xb,0xb" [token "0xA"] ∧
  pendingBatchRequests started.1 !! spec_batch_signature warm (read 2 warm) = None ∧
  addresses <$> pendingBatchRequests started.1 !! "0xA,0xb,0xb" = Some ["0xb"; "0xb"].
Proof. vm_compute. done. Qed.

(** C4, amended: the key under which a pending batch is looked up and
    registered is the comma-joined sorted array of all the addresses of
    the call, cache hits and duplicates included, computed before the
    partition.  The uncached list (sorted, duplicates kept) is what the
    registered batch stores in its field [addresses] and what the one
    request of the call carries to the provider; a call that joins a
    batch, or finds every address cached, sends nothing. *)
Theorem batch_key_of_whole_array (w : World) (addresses : nat) (l : list string) :
  heap w !! addresses = Some l → l ≠ [] →
  let batchKey := join "," (sort l) in
  let uncached := filter (λ a, lookupValid w a = None) (sort l) in
  let started := getBatchTokenMetadata addresses w in
  match started.2 with
  | Joined p =>
      (∃ b, pendingBatchRequests w !! batchKey = Some b ∧ promise b = p ∧
            clock w - MetadataCache.started b < BATCH_TIMEOUT) ∧
      pendingBatchRequests started.1 = pendingBatchRequests w ∧
      requests started.1 = requests w
  | Awaiting p key cachedResults =>
      key = batchKey ∧
      reusable (clock w) (pendingBatchRequests w !! batchKey) = None ∧
      uncached ≠ [] ∧
      pendingBatchRequests started.1
      = <[batchKey := {| MetadataCache.addresses := uncached;
                         promise := p; MetadataCache.started := clock w |}]>
          (pendingBatchRequests w) ∧
      pendingBatchRequests started.1 !! batchKey
      = Some {| MetadataCache.addresses := uncached;
                promise := p; MetadataCache.started := clock w |} ∧
      requests started.1
      = requests w ++
        [{| req_promise := p; req_url := "/api/tokens/batch-metadata";
            req_options :=
              Some {| RateLimiter.method := Some "POST";
                      RateLimiter.headers := [("Content-Type", "application/json")];
                      RateLimiter.body := Some (batch_body uncached) |} |}]
  | Done _ =>
      uncached = [] ∧
      pendingBatchRequests started.1 = pendingBatchRequests w ∧
      requests started.1 = requests w
  end.
Proof.
  intros Hl Hne. cbv zeta. rewrite (getBatch_nonempty w addresses l Hl Hne).
  destruct (reusable _ _) as [b|] eqn:Hre; simpl.
  - unfold reusable in Hre.
    destruct (pendingBatchRequests w !! _) as [b'|]; [|done].
    case_bool_decide; [|done]. injection Hre as ->. split; [eauto | done].
  - case_bool_decide as Hlen; simpl.
    + split; [|done]. by apply nil_length_inv.
    + split; [done|]. split; [done|]. split.
      { intros Hnil. apply Hlen. by rewrite Hnil. }
      split; [done|]. split; [apply lookup_insert_eq | done].
Qed.

Lemma batch_key_of_whole_array_witness :
  addresses <$> pendingBatchRequests (getBatchTokenMetadata 2 warm).1
                  !! join "," (sort ["0xb"; "0xA"; "0xb"])
  = Some ["0xb"; "0xb"] ∧
  omap (λ r, req_options r ≫= RateLimiter.body)
    (requests (getBatchTokenMetadata 2 warm).1)
  = [batch_body ["0xb"; "0xb"]].
Proof.
  pose proof (batch_key_of_whole_array warm 2 ["0xb"; "0xA"; "0xb"]
                eq_refl ltac:(discriminate)) as H.
  cbv zeta in H.
  change (getBatchTokenMetadata 2 warm).2
    with (Awaiting 0 "0xA,0xb,0xb" [token "0xA"]) in H.
  destruct H as (_ & _ & _ & _ & -> & ->). split; reflexivity.
Defined.

(** *** Failure of the batch fetch *)

Lemma getBatch_awaiting_inv (w : World) (addresses : nat) p batchKey cachedResults :
  (getBatchTokenMetadata addresses w).2 = Awaiting p batchKey cachedResults →
  cachedResults = omap (lookupValid w) (sort (read addresses w)).
Proof.
  intros Hs. unfold read in *.
  destruct (heap w !! addresses) as [l|] eqn:Hl.
  - destruct l as [|a l].
    + rewrite getBatch_empty in Hs; [done|]. unfold read. by rewrite Hl.
    + rewrite (getBatch_nonempty w addresses (a :: l) Hl) in Hs by done.
      destruct (reusable _ _); [done|]. case_bool_decide; [done|].
      by injection Hs as _ _ <-.
  - rewrite getBatch_empty in Hs; [done|]. unfold read. by rewrite Hl.
Qed.

(** When the rate-limited request of a batch fails, the error stops in
    [fetchBatchFromAPI], whose promise resolves with the empty list.  No
    call of the batch form rejects, and the call that created the batch
    resolves with exactly its cached results, the records of the valid
    entries of its addresses; the cache itself is not modified. *)
Lemma failed_batch_resolves_with_cached
    (w later : World) (addresses : nat) (error : string) :
  let started := (getBatchTokenMetadata addresses w).2 in
  fetchBatchFromAPI_settle (Throw error) = Normal [] ∧
  (∃ result,
      (getBatchTokenMetadata_outcome started (Throw error) later).2 = Normal result) ∧
  ∀ p batchKey cachedResults,
    started = Awaiting p batchKey cachedResults →
    cachedResults = omap (lookupValid w) (sort (read addresses w)) ∧
    getBatchTokenMetadata_outcome started (Throw error) later
    = (with_batches (delete batchKey (pendingBatchRequests later)) later,
       Normal cachedResults) ∧
    cache (getBatchTokenMetadata_outcome started (Throw error) later).1 = cache later.
Proof.
  cbv zeta. split; [done|]. split.
  - destruct (getBatchTokenMetadata addresses w).2; simpl; eauto.
  - intros p batchKey cachedResults Hs. split.
    + by eapply getBatch_awaiting_inv.
    + rewrite Hs. simpl. split; [|done].
      unfold getBatchTokenMetadata_resume, try_finally_delete. simpl.
      by rewrite app_nil_r.
Qed.

Lemma failed_batch_resolves_with_cached_witness :
  (getBatchTokenMetadata_outcome (getBatchTokenMetadata 0 warm).2
     (Throw "API request failed: 500 Internal Server Error")
     (getBatchTokenMetadata 0 warm).1).2
  = Normal [token "0xA"].
Proof.
  destruct (failed_batch_resolves_with_cached warm (getBatchTokenMetadata 0 warm).1 0
              "API request failed: 500 Internal Server Error") as (_ & _ & H).
  destruct (H 0%nat "0xA,0xb" [token "0xA"] eq_refl) as (_ & -> & _).
  reflexivity.
Defined.

(** A call that joined a batch resolves with what the batch fetch
    resolved with, whatever the cache holds: with the empty list when the
    request of the batch failed. *)
Lemma joiner_of_failed_batch (w : World) (p : nat) (error : string) :
  getBatchTokenMetadata_outcome (Joined p) (Throw error) w = (w, Normal []).
Proof. reflexivity. Qed.

(** C5 at its failing input: the record of 0xA is a valid cache hit and
    0xb is not cached.  The first caller of [0xb, 0xA] creates the batch,
    the second caller of [0xA, 0xb] joins it, and the request of the batch
    fails.  Neither call rejects; the first one resolves with the cached
    record of 0xA, the second one with the empty list: the valid entry of
    its own address is not in its result. *)
Theorem failed_batch_joiner_loses_cached :
  let first := getBatchTokenMetadata 0 warm in
  let second := getBatchTokenMetadata 1 first.1 in
  let failure := Throw "API request failed: 500 Internal Server Error" in
  read 1 first.1 = ["0xA"; "0xb"] ∧
  lookupValid first.1 "0xA" = Some (token "0xA") ∧
  first.2 = Awaiting 0 "0xA,0xb" [token "0xA"] ∧
  second.2 = Joined 0 ∧
  lookupValid second.1 "0xA" = Some (token "0xA") ∧
  (getBatchTokenMetadata_outcome first.2 failure second.1).2
  = Normal [token "0xA"] ∧
  (getBatchTokenMetadata_outcome second.2 failure second.1).2
  = Normal [].
Proof. vm_compute. done. Qed.

(** *** Time to live *)

(** The sweep removes no entry that a lookup would serve. *)
Lemma cleanup_keeps_valid (w : World) (address : string) :
  lookupValid (cleanupExpiredEntries w) address = lookupValid w address.
Proof.
  unfold lookupValid, cleanupExpiredEntries, isCacheValid. simpl.
  rewrite map_lookup_filter.
  destruct (cache w !! toLowerCase address) as [e|] eqn:He; simpl; [|done].
  case_guard as Hg; simpl in *; [done|].
  rewrite bool_decide_eq_false_2; [done | lia].
Qed.

(** The test of an entry: a record written at time T is stored with
    expiry T + TTL; as long as its entry is the one under its key, any
    spelling of the address is a hit at every time from T up to T + TTL
    excluded, and from T + TTL on it is a miss: the address goes to the
    uncached list, as an absent one does. *)
Lemma cache_ttl_law (w w' : World) (token : TokenMetadata) (query : string) :
  toLowerCase query = toLowerCase (address token) →
  cache w' !! toLowerCase (address token)
  = cache (cacheToken token w) !! toLowerCase (address token) →
  let T := clock w in
  let T' := clock w' in
  cache (cacheToken token w) !! toLowerCase (address token)
  = Some {| data := token; timestamp := T; expiresAt := T + CACHE_DURATION |} ∧
  (T ≤ T' < T + CACHE_DURATION →
     lookupValid w' query = Some token ∧
     getTokenMetadata query w' = (w', Hit token) ∧
     partition w' [query] = ([], [token])) ∧
  (T + CACHE_DURATION ≤ T' →
     lookupValid w' query = None ∧
     partition w' [query] = ([query], [])).
Proof.
  intros Hq Hkept T T'.
  assert (Hentry : cache (cacheToken token w) !! toLowerCase (address token)
                   = Some {| data := token; timestamp := T;
                             expiresAt := T + CACHE_DURATION |}).
  { unfold cacheToken. simpl. apply lookup_insert_eq. }
  rewrite Hentry in Hkept. split; [done|].
  assert (Hlook : lookupValid w' query
                  = if bool_decide (T' < T + CACHE_DURATION) then Some token else None).
  { unfold lookupValid, isCacheValid. by rewrite Hq, Hkept. }
  split; intros HT.
  - rewrite bool_decide_eq_true_2 in Hlook by lia.
    unfold getTokenMetadata, partition. simpl. unfold partition_step.
    by rewrite Hlook.
  - rewrite bool_decide_eq_false_2 in Hlook by lia.
    unfold partition. simpl. unfold partition_step. by rewrite Hlook.
Qed.

Lemma cache_ttl_law_witness :
  lookupValid warm "0XA" = Some (token "0xA") ∧
  lookupValid (with_clock 600000 warm) "0XA" = None.
Proof.
  split.
  - apply (cache_ttl_law cold warm (token "0xA") "0XA"); [reflexivity .. | ].
    vm_compute. split; [discriminate | reflexivity].
  - apply (cache_ttl_law cold (with_clock 600000 warm) (token "0xA") "0XA");
      [reflexivity .. | ].
    vm_compute. discriminate.
Defined.

(** A batch call that joins no pending batch obeys the same law: inside
    the time to live the record is in the cached results of the call and
    the address is not asked from the provider; from T + TTL on the
    address is in the list sent to the provider. *)
Lemma batch_lookup_obeys_ttl (w w' : World) (token : TokenMetadata) (query : string)
    (addresses : nat) (l : list string) :
  toLowerCase query = toLowerCase (address token) →
  cache w' !! toLowerCase (address token)
  = cache (cacheToken token w) !! toLowerCase (address token) →
  heap w' !! addresses = Some l → query ∈ l →
  reusable (clock w') (pendingBatchRequests w' !! join "," (sort l)) = None →
  let T := clock w in
  let T' := clock w' in
  let started := getBatchTokenMetadata addresses w' in
  (T ≤ T' < T + CACHE_DURATION →
     match started.2 with
     | Done result => token ∈ result
     | Awaiting _ batchKey cachedResults =>
         token ∈ cachedResults ∧
         ∀ b, pendingBatchRequests started.1 !! batchKey = Some b →
              query ∉ MetadataCache.addresses b
     | Joined _ => False
     end) ∧
  (T + CACHE_DURATION ≤ T' →
     match started.2 with
     | Awaiting _ batchKey _ =>
         ∃ b, pendingBatchRequests started.1 !! batchKey = Some b ∧
              query ∈ MetadataCache.addresses b
     | _ => False
     end).
Proof.
  intros Hq Hkept Hl Hin Hre T T' started.
  assert (Hne : l ≠ []) by (intros ->; by apply elem_of_nil in Hin).
  assert (Hsorted : query ∈ sort l).
  { unfold sort. by rewrite merge_sort_Permutation. }
  destruct (cache_ttl_law w w' token query Hq Hkept) as (_ & Hhit & Hmiss).
  subst started. rewrite (getBatch_nonempty w' addresses l Hl Hne).
  rewrite Hre. split; intros HT.
  - destruct (Hhit HT) as (Hlook & _).
    assert (Hcached : token ∈ omap (lookupValid w') (sort l)).
    { apply list_elem_of_omap. eauto. }
    case_bool_decide; simpl; [done|]. split; [done|].
    intros b. rewrite lookup_insert_eq. intros [= <-]. simpl.
    rewrite list_elem_of_filter. intros [Hnone _]. congruence.
  - destruct (Hmiss HT) as (Hlook & _).
    assert (Huncached : query ∈ filter (λ a, lookupValid w' a = None) (sort l)).
    { by apply list_elem_of_filter. }
    case_bool_decide as Hlen; simpl.
    + apply nil_length_inv in Hlen. rewrite Hlen in Huncached.
      by apply elem_of_nil in Huncached.
    + eexists. split; [apply lookup_insert_eq | done].
Qed.

(** C6 at its failing input: the caller of [0xb, 0xA] creates a batch at
    time 0, on an empty cache; at time 1000 a search writes the record of
    0xA; at time 2000, inside the time to live of that record, the caller
    of [0xA, 0xb] joins the pending batch before the cache is read.  The
    provider answers with the record of 0xb only, and so does the second
    call: the valid entry of 0xA, which the single-address form serves at
    that time, is not served. *)
Theorem joiner_is_not_served_valid_entry :
  let first := getBatchTokenMetadata 0 cold in
  let found := searchTokens_resume (Normal [token "0xA"]) (with_clock 1000 first.1) in
  let w := with_clock 2000 found.1 in
  let second := getBatchTokenMetadata 1 w in
  let response := Normal {| tokens := Some [token "0xb"] |} in
  first.2 = Awaiting 0 "0xA,0xb" [] ∧
  cache w !! "0xa"
  = Some {| data := token "0xA"; timestamp := 1000;
            expiresAt := 1000 + CACHE_DURATION |} ∧
  1000 ≤ clock w < 1000 + CACHE_DURATION ∧
  read 1 w = ["0xA"; "0xb"] ∧
  (getTokenMetadata "0xA" w).2 = Hit (token "0xA") ∧
  second.2 = Joined 0 ∧
  lookupValid second.1 "0xA" = Some (token "0xA") ∧
  (getBatchTokenMetadata_outcome second.2 response second.1).2
  = Normal [token "0xb"].
Proof. vm_compute. repeat split; congruence. Qed.

(** *** The single-address form *)

(** C7, as stated, fails: asked for 0xa on an empty cache, the call
    returns the first record of the batch result, whatever its address.
    It returns the record of 0xb when that of 0xa comes second, and it
    returns the record of 0xb, not null, when 0xa has no record. *)
Lemma first_record_wins :
  let started := getTokenMetadata "0xa" cold in
  let both := Normal {| tokens := Some [token "0xb"; token "0xa"] |} in
  let other := Normal {| tokens := Some [token "0xb"] |} in
  (getTokenMetadata_outcome started.2 both started.1).2 = Normal (Some (token "0xb")) ∧
  spec_match_by_address "0xa" [token "0xb"; token "0xa"] = Some (token "0xa") ∧
  (getTokenMetadata_outcome started.2 other started.1).2 = Normal (Some (token "0xb")) ∧
  spec_match_by_address "0xa" [token "0xb"] = None.
Proof. vm_compute. done. Qed.

Lemma getTokenMetadata_resume_head (result : list TokenMetadata) :
  getTokenMetadata_resume result = head result.
Proof. by destruct result. Qed.

(** C7, amended: a valid cache entry of the address is returned at once;
    otherwise the call delegates to the batch form with the one-element
    array of the address, and returns null exactly when the batch result
    is empty, and the first record of the result otherwise, chosen by
    position. *)
Theorem getTokenMetadata_first_of_batch (w : World) (address : string) :
  match lookupValid w address with
  | Some d => getTokenMetadata address w = (w, Hit d)
  | None =>
      let allocated := alloc [address] w in
      let started := getBatchTokenMetadata allocated.2 allocated.1 in
      read allocated.2 allocated.1 = [address] ∧
      getTokenMetadata address w = (started.1, Delegated allocated.2 started.2)
  end ∧
  ∀ result : list TokenMetadata,
    getTokenMetadata_resume result = head result ∧
    (getTokenMetadata_resume result = None ↔ result = []) ∧
    (∀ array s response later,
        (getBatchTokenMetadata_outcome s response later).2 = Normal result →
        (getTokenMetadata_outcome (Delegated array s) response later).2
        = Normal (head result)).
Proof.
  split.
  - unfold getTokenMetadata.
    destruct (lookupValid w address) as [d|]; [done|].
    cbv zeta. split.
    + unfold alloc, read. simpl. by rewrite lookup_insert_eq.
    + unfold alloc. simpl. by destruct (getBatchTokenMetadata _ _).
  - intros result. split; [apply getTokenMetadata_resume_head|]. split.
    + rewrite getTokenMetadata_resume_head. by destruct result.
    + intros array s response later Hr. simpl.
      destruct (getBatchTokenMetadata_outcome s response later) as [w1 r].
      simpl in *. subst r. simpl. by rewrite getTokenMetadata_resume_head.
Qed.

Lemma getTokenMetadata_first_of_batch_witness :
  (getTokenMetadata_outcome
     (Delegated 0 (Awaiting 0 "0xa" []))
     (Normal {| tokens := Some [token "0xb"; token "0xa"] |})
     (getTokenMetadata "0xa" cold).1).2
  = Normal (Some (token "0xb")).
Proof.
  destruct (getTokenMetadata_first_of_batch cold "0xa") as [_ H].
  destruct (H [token "0xb"; token "0xa"]) as (_ & _ & Hout).
  apply Hout. vm_compute. reflexivity.
Defined.

(** *** Search *)

Lemma cacheTokens_snoc (tokens : list TokenMetadata) (t : TokenMetadata) (w : World) :
  cacheTokens (tokens ++ [t]) w = cacheToken t (cacheTokens tokens w).
Proof. unfold cacheTokens. by rewrite foldl_app. Qed.

Lemma clock_cacheTokens (tokens : list TokenMetadata) (w : World) :
  clock (cacheTokens tokens w) = clock w.
Proof.
  induction tokens as [|t tokens IH] using rev_ind; [done|].
  by rewrite cacheTokens_snoc.
Qed.

(** After the loop every record of the list has, under its lower-cased
    address, an entry written now: the entry of the last record of the
    list with that key. *)
Lemma cacheTokens_written (tokens : list TokenMetadata) (w : World) (t : TokenMetadata) :
  t ∈ tokens →
  ∃ last, last ∈ tokens ∧
    toLowerCase (address last) = toLowerCase (address t) ∧
    cache (cacheTokens tokens w) !! toLowerCase (address t)
    = Some {| data := last; timestamp := clock w;
              expiresAt := clock w + CACHE_DURATION |}.
Proof.
  induction tokens as [|x tokens IH] using rev_ind; intros Hin.
  - by apply elem_of_nil in Hin.
  - rewrite cacheTokens_snoc. unfold cacheToken at 1. simpl.
    rewrite clock_cacheTokens.
    destruct (decide (toLowerCase (address x) = toLowerCase (address t))) as [Hk|Hk].
    + exists x. split; [apply elem_of_app; right; constructor|]. split; [done|].
      rewrite <- Hk. apply lookup_insert_eq.
    + assert (Ht : t ∈ tokens).
      { apply elem_of_app in Hin as [?|Hx]; [done|].
        apply list_elem_of_singleton in Hx. by subst. }
      destruct (IH Ht) as (last & Hlast & Hkey & Hentry).
      exists last. split; [apply elem_of_app; by left|]. split; [done|].
      by rewrite lookup_insert_ne.
Qed.

(** Records with other keys are left as they were. *)
Lemma cacheTokens_other (tokens : list TokenMetadata) (w : World) (key : string) :
  (∀ t, t ∈ tokens → toLowerCase (address t) ≠ key) →
  cache (cacheTokens tokens w) !! key = cache w !! key.
Proof.
  induction tokens as [|x tokens IH] using rev_ind; intros Hk; [done|].
  rewrite cacheTokens_snoc. unfold cacheToken. simpl.
  rewrite lookup_insert_ne by (apply Hk, elem_of_app; right; constructor).
  apply IH. intros t Ht. apply Hk, elem_of_app. by left.
Qed.

(** C10: the search sends one request without options and never rejects:
    a request that throws makes it resolve with the empty list, a request
    that succeeds makes it resolve with the array received, after every
    record of that array has been written to the cache with expiry
    now + TTL. *)
Theorem searchTokens_never_rejects
    (w later : World) (query : string) (limit : option Z)
    (settled : completion (list TokenMetadata)) :
  let started := searchTokens query limit w in
  let finished := searchTokens_resume settled later in
  (cache started.1 = cache w ∧
   ∃ url, requests started.1
          = requests w ++ [{| req_promise := started.2; req_url := url;
                              req_options := None |}]) ∧
  (∃ result, finished.2 = Normal result) ∧
  match settled with
  | Throw error => finished = (later, Normal [])
  | Normal response =>
      finished.2 = Normal response ∧
      finished.1 = cacheTokens response later ∧
      ∀ t, t ∈ response →
        ∃ last, last ∈ response ∧
          toLowerCase (address last) = toLowerCase (address t) ∧
          cache finished.1 !! toLowerCase (address t)
          = Some {| data := last; timestamp := clock later;
                    expiresAt := clock later + CACHE_DURATION |} ∧
          lookupValid finished.1 (address t) = Some last
  end.
Proof.
  cbv zeta. split; [|split].
  - split; [done|]. unfold searchTokens, makeRateLimitedRequest. simpl. eauto.
  - destruct settled; simpl; eauto.
  - destruct settled as [response|error]; simpl; [|done].
    split; [done|]. split; [done|]. intros t Ht.
    destruct (cacheTokens_written response later t Ht) as (last & Hlast & Hkey & Hentry).
    exists last. repeat split; try done.
    unfold lookupValid, isCacheValid. rewrite Hentry, clock_cacheTokens. simpl.
    rewrite bool_decide_eq_true_2; [done|]. unfold CACHE_DURATION. lia.
Qed.

Lemma searchTokens_never_rejects_witness :
  ∃ last, toLowerCase (address last) = "0xc" ∧
    lookupValid
      (searchTokens_resume (Normal [token "0xb"; token "0xC"]) warm).1 "0xC"
    = Some last.
Proof.
  pose proof (searchTokens_never_rejects cold warm "osmo" None
                (Normal [token "0xb"; token "0xC"])) as (_ & _ & _ & _ & H).
  destruct (H (token "0xC")) as (last & _ & Hkey & _ & Hvalid).
  { apply list_elem_of_further, list_elem_of_here. }
  exists last. split; [exact Hkey | exact Hvalid].
Defined.

End MetadataCacheFacts.

(** ** More on the rate limiter: status, reset and the bookkeeping *)

Module RateLimiterMore.
Import Js RateLimiter Scenarios.Limiter RateLimiterFacts.

(** *** Pruning is invisible *)

Lemma newer_newer (c1 c2 : Z) (l : list Z) :
  c1 ≤ c2 →
  filter (λ t, c2 < t) (filter (λ t, c1 < t) l) = filter (λ t, c2 < t) l.
Proof.
  intros Hc. induction l as [|x l IH]; [done|].
  rewrite !(filter_cons _ x l).
  destruct (decide (c1 < x)), (decide (c2 < x)); try lia.
  - rewrite filter_cons. destruct (decide (c2 < x)); [|done]. by rewrite IH.
  - rewrite filter_cons. destruct (decide (c2 < x)); [done|]. by rewrite IH.
  - done.
Qed.

Lemma prune_idem (w : World) : prune (prune w) = prune w.
Proof.
  unfold prune, cleanupRequestHistory, with_self, with_history. simpl.
  by rewrite newer_idem.
Qed.

(** A step taken from the pruned state ends, up to pruning, where the
    step taken from the state itself ends. *)
Lemma prune_step (w : World) (e : Event) :
  prune (step (prune w) e) = prune (step w e).
Proof.
  destruct w as [c [pend hist cd ct cfg] tms nh np fs frs hd].
  destruct e as [caller url options|dt|h|p|].
  - simpl. unfold makeRequest. simpl.
    destruct (pend !! generateRequestKey url options).
    + unfold prune, cleanupRequestHistory, with_self, with_history. simpl.
      by rewrite newer_idem.
    + unfold canMakeRequest. simpl. destruct cd.
      * unfold prune, cleanupRequestHistory, with_self, with_history. simpl.
        by rewrite newer_idem.
      * unfold cleanupRequestHistory, with_history. simpl. by rewrite newer_idem.
  - unfold prune, cleanupRequestHistory, with_self, with_history. simpl.
    rewrite newer_newer; [done | lia].
  - simpl. unfold armed. simpl.
    destruct (head (filter (λ t, handle t = h) tms)) as [t|]; [|apply prune_idem].
    case_bool_decide; [|apply prune_idem].
    destruct (job t) as [|caller url options]; simpl.
    + unfold prune, cleanupRequestHistory, with_self, with_history, with_cooldown.
      simpl. by rewrite newer_idem.
    + unfold prune, cleanupRequestHistory, with_self, with_history, with_pending.
      simpl. by rewrite !filter_app, newer_idem.
  - simpl. unfold settle. simpl.
    destruct (filter (λ f, f.1 = p) frs) as [|[? requestKey] ?];
      unfold prune, cleanupRequestHistory, with_self, with_history, with_pending;
      simpl; by rewrite newer_idem.
  - simpl. change (prune (prune (prune {| clock := c;
      self := {| pendingRequests := pend; requestHistory := hist; isCooldown := cd;
                 cooldownTimeout := ct; config := cfg |};
      timers := tms; next_handle := nh; next_promise := np; fetches := fs;
      frames := frs; handed := hd |})) = prune (prune {| clock := c;
      self := {| pendingRequests := pend; requestHistory := hist; isCooldown := cd;
                 cooldownTimeout := ct; config := cfg |};
      timers := tms; next_handle := nh; next_promise := np; fetches := fs;
      frames := frs; handed := hd |})).
    by rewrite !prune_idem.
Qed.

Lemma prune_run (w : World) (es : list Event) :
  prune (run (prune w) es) = prune (run w es).
Proof.
  revert w. induction es as [|e es IH]; intros w; [apply prune_idem|].
  change (prune (run (step (prune w) e) es) = prune (run (step w e) es)).
  rewrite <- (IH (step (prune w) e)), <- (IH (step w e)).
  by rewrite prune_step.
Qed.

Lemma getStatus_prune (env : Env) (w : World) : (getStatus env w).1 = prune w.
Proof.
  unfold getStatus, canMakeRequest, prune. simpl.
  destruct (isCooldown (self w)); simpl; [done|].
  unfold cleanupRequestHistory, with_self, with_history. simpl.
  by rewrite newer_idem.
Qed.

(** X1: a call of [getStatus], like the periodic sweep, changes nothing
    that a later request can observe: from the state it leaves, every run
    sends the same network calls, hands out the same promises and sets the
    same timers as from the state before it. *)
Theorem status_and_sweep_are_invisible (env : Env) (w : World) (es : list Event) :
  let after_status := run (getStatus env w).1 es in
  let after_sweep := run (step w Sweep) es in
  let plain := run w es in
  (fetches after_status = fetches plain ∧ handed after_status = handed plain ∧
   timers after_status = timers plain ∧ frames after_status = frames plain ∧
   pendingRequests (self after_status) = pendingRequests (self plain) ∧
   isCooldown (self after_status) = isCooldown (self plain) ∧
   window_count after_status = window_count plain) ∧
  (fetches after_sweep = fetches plain ∧ handed after_sweep = handed plain ∧
   timers after_sweep = timers plain ∧ frames after_sweep = frames plain ∧
   pendingRequests (self after_sweep) = pendingRequests (self plain) ∧
   isCooldown (self after_sweep) = isCooldown (self plain) ∧
   window_count after_sweep = window_count plain).
Proof.
  cbv zeta. rewrite getStatus_prune.
  change (step w Sweep) with (prune w).
  pose proof (prune_run w es) as Hp.
  assert (Hobs : ∀ a b : World, prune a = prune b →
            fetches a = fetches b ∧ handed a = handed b ∧
            timers a = timers b ∧ frames a = frames b ∧
            pendingRequests (self a) = pendingRequests (self b) ∧
            isCooldown (self a) = isCooldown (self b) ∧
            window_count a = window_count b).
  { intros a b Hab.
    repeat split.
    - exact (f_equal fetches Hab).
    - exact (f_equal handed Hab).
    - exact (f_equal timers Hab).
    - exact (f_equal frames Hab).
    - exact (f_equal (λ x, pendingRequests (self x)) Hab).
    - exact (f_equal (λ x, isCooldown (self x)) Hab).
    - unfold window_count.
      pose proof (f_equal (λ x, requestHistory (self x)) Hab) as Hh.
      pose proof (f_equal clock Hab) as Hc.
      pose proof (f_equal (λ x, config (self x)) Hab) as Hcfg.
      simpl in *. rewrite <- Hc, <- Hcfg in Hh |- *. by rewrite Hh. }
  split; by apply Hobs.
Qed.

(** X2: what [getStatus] reports is what the limiter would decide now: the
    window occupancy it reports is the number of timestamps inside the
    window, and it reports [canMakeRequest] exactly when a request that is
    not already pending would be sent at once instead of sleeping. *)
Theorem status_predicts_admission (env : Env) (w : World) caller url options :
  pendingRequests (self w) !! generateRequestKey url options = None →
  let status := (getStatus env w).2 in
  Z.of_nat (requestsInWindow status) = window_count w ∧
  status_canMakeRequest status = negb (blocked w (Call caller url options)) ∧
  (status_canMakeRequest status = true ↔
   isCooldown (self w) = false ∧ window_count w < maxRequests (config (self w))) ∧
  status_pendingRequests status = size (pendingRequests (self w)).
Proof.
  intros Hnone. cbv zeta. unfold getStatus, blocked, canMakeRequest, window_count.
  rewrite Hnone. simpl.
  destruct (isCooldown (self w)); simpl.
  - split; [done|]. split; [done|]. split; [|done].
    split; [done | by intros [? _]].
  - rewrite newer_idem. split; [done|]. split; [by rewrite negb_involutive|].
    split; [|done].
    rewrite bool_decide_eq_true. tauto.
Qed.

Lemma status_predicts_admission_witness :
  status_canMakeRequest (getStatus None (run (boot None 0) paced)).2 = false ∧
  requestsInWindow (getStatus None (run (boot None 0) paced)).2 = 2%nat.
Proof.
  destruct (status_predicts_admission None (run (boot None 0) paced) 3 "/c" None)
    as (Hn & Hc & _ & _); [reflexivity|].
  split.
  - rewrite Hc. reflexivity.
  - apply Nat2Z.inj. rewrite Hn. reflexivity.
Defined.

(** *** Pending entries and the frames that own them *)

Lemma fst_unique {A B} (l : list (A * B)) (x : A) (y1 y2 : B) :
  NoDup l.*1 → (x, y1) ∈ l → (x, y2) ∈ l → y1 = y2.
Proof.
  induction l as [|[a b] l IH]; intros Hnd H1 H2.
  - by apply elem_of_nil in H1.
  - rewrite fmap_cons in Hnd. apply NoDup_cons in Hnd as [Hnotin Hnd].
    apply elem_of_cons in H1 as [H1|H1]; apply elem_of_cons in H2 as [H2|H2].
    + congruence.
    + injection H1 as -> ->. exfalso. apply Hnotin.
      apply list_elem_of_fmap. by exists (a, y2).
    + injection H2 as -> ->. exfalso. apply Hnotin.
      apply list_elem_of_fmap. by exists (a, y1).
    + by apply IH.
Qed.

Lemma track_same (w w' : World) :
  pendingRequests (self w') = pendingRequests (self w) →
  frames w' = frames w → next_promise w' = next_promise w →
  frames_track_pending w → frames_track_pending w'.
Proof. unfold frames_track_pending. by intros -> -> ->. Qed.

Lemma track_cleared (w w' : World) :
  pendingRequests (self w') = ∅ →
  frames w' = frames w → next_promise w' = next_promise w →
  frames_track_pending w → frames_track_pending w'.
Proof.
  unfold frames_track_pending. intros -> -> -> (_ & ? & ?).
  split; [|done]. intros key pr Hk. by rewrite lookup_empty in Hk.
Qed.

Lemma track_proceed caller url options (w : World) :
  frames_track_pending w → frames_track_pending (proceed caller url options w).
Proof.
  unfold frames_track_pending. intros (Htrack & Hlt & Hnd). simpl.
  split; [|split].
  - intros key pr Hk. apply elem_of_app.
    destruct (decide (generateRequestKey url options = key)) as [<-|Hne].
    + rewrite lookup_insert_eq in Hk. injection Hk as <-. right. simpl. constructor.
    + rewrite lookup_insert_ne in Hk by done. left. by apply Htrack.
  - apply Forall_app. split.
    + eapply Forall_impl; [exact Hlt|]. simpl. intros f Hf. lia.
    + constructor; [simpl; lia | constructor].
  - rewrite fmap_app. apply NoDup_app. split; [done|]. split.
    + intros p Hp Hp'. apply list_elem_of_singleton in Hp'. subst p.
      apply list_elem_of_fmap in Hp as ([p key] & Heq & Hin). simpl in Heq. subst p.
      rewrite Forall_forall in Hlt. specialize (Hlt _ Hin). simpl in Hlt. lia.
    + apply NoDup_singleton.
Qed.

Lemma track_settle (p : nat) (w : World) :
  frames_track_pending w → frames_track_pending (settle p w).
Proof.
  unfold settle. intros Hw.
  destruct (filter (λ f, f.1 = p) (frames w)) as [|[p' requestKey] rest] eqn:Hf; [done|].
  assert (Hin : (p', requestKey) ∈ filter (λ f, f.1 = p) (frames w))
    by (rewrite Hf; constructor).
  apply list_elem_of_filter in Hin as [Hp Hin]. simpl in Hp. subst p'.
  destruct Hw as (Htrack & Hlt & Hnd). unfold frames_track_pending. simpl.
  split; [|split].
  - intros key pr Hk.
    destruct (decide (requestKey = key)) as [<-|Hne].
    { by rewrite lookup_delete_eq in Hk. }
    rewrite lookup_delete_ne in Hk by done.
    apply list_elem_of_filter. split; [|by apply Htrack].
    simpl. intros Heq. apply Hne.
    apply (fst_unique (frames w) p); [done..|]. rewrite <- Heq. by apply Htrack.
  - by apply Forall_filter_keep.
  - eapply sublist_NoDup; [exact Hnd|].
    apply fmap_sublist, sublist_filter.
Qed.

Lemma pending_canMakeRequest (now : Z) (l : Limiter) :
  pendingRequests (canMakeRequest now l).2 = pendingRequests l.
Proof. unfold canMakeRequest. by destruct (isCooldown l). Qed.

Lemma track_step (w : World) (e : Event) :
  frames_track_pending w → frames_track_pending (step w e).
Proof.
  intros Hw. destruct e as [caller url options|dt|h|p|]; simpl.
  - unfold makeRequest.
    destruct (pendingRequests (self w) !! _); [by eapply track_same|].
    pose proof (pending_canMakeRequest (clock w) (self w)) as Hp.
    destruct (canMakeRequest (clock w) (self w)) as [ok l]. simpl in Hp.
    destruct ok.
    + apply track_proceed. by eapply track_same.
    + by eapply track_same.
  - by eapply track_same.
  - destruct (armed h w) as [t|]; [|done].
    case_bool_decide; [|done].
    destruct (job t); simpl.
    + by eapply track_same.
    + apply track_proceed. by eapply track_same.
  - by apply track_settle.
  - by eapply track_same.
Qed.

Lemma track_act (w : World) (a : Action) :
  frames_track_pending w → frames_track_pending (act w a).
Proof.
  intros Hw. destruct a as [e|env| |]; simpl.
  - by apply track_step.
  - rewrite getStatus_prune. by eapply track_same.
  - by apply (track_cleared w).
  - by apply (track_cleared w).
Qed.

Lemma track_perform (w : World) (acts : list Action) :
  frames_track_pending w → frames_track_pending (perform w acts).
Proof.
  revert w. induction acts as [|a acts IH]; intros w Hw; [done|].
  simpl. apply IH. by apply track_act.
Qed.

Lemma track_boot (env : Env) (t0 : Z) : frames_track_pending (boot env t0).
Proof.
  unfold frames_track_pending, boot. simpl. split; [|split].
  - intros key pr Hk. by rewrite lookup_empty in Hk.
  - constructor.
  - constructor.
Qed.

(** X3: a pending entry never outlives the call that registered it.  In
    every state the limiter can reach, each pending entry is the entry of a
    call of [makeRequest] that still awaits that very promise; so once no
    call is in flight, the pending map is empty. *)
Theorem pending_never_leaks (env : Env) (t0 : Z) (acts : list Action) :
  let w := perform (boot env t0) acts in
  (∀ key pr, pendingRequests (self w) !! key = Some pr →
             (promise pr, key) ∈ frames w) ∧
  (frames w = [] → pendingRequests (self w) = ∅).
Proof.
  cbv zeta.
  destruct (track_perform (boot env t0) acts (track_boot env t0)) as (Htrack & _ & _).
  split; [done|]. intros Hnil. apply map_eq. intros key.
  rewrite lookup_empty. destruct (pendingRequests _ !! key) as [pr|] eqn:Hk; [|done].
  apply Htrack in Hk. rewrite Hnil in Hk. by apply elem_of_nil in Hk.
Qed.

(** X4: when the network call of a request settles, fulfilled or
    rejected, its pending entry is removed and nothing is sent: no key
    hands out the settled promise any more, so an identical request made
    afterwards goes to the network again. *)
Theorem settled_request_is_forgotten
    (env : Env) (t0 : Z) (acts : list Action) (p : nat) (key : string) :
  let w := perform (boot env t0) acts in
  (p, key) ∈ frames w →
  let w' := step w (Settle p) in
  pendingRequests (self w') !! key = None ∧
  (∀ k pr, pendingRequests (self w') !! k = Some pr → promise pr ≠ p) ∧
  fetches w' = fetches w ∧
  (∀ f, f ∈ frames w' ↔ f ∈ frames w ∧ f.1 ≠ p).
Proof.
  intros w Hin w'.
  pose proof (track_perform (boot env t0) acts (track_boot env t0)) as Hw.
  fold w in Hw.
  pose proof (track_settle p w Hw) as (Htrack' & _ & _).
  destruct Hw as (Htrack & Hlt & Hnd).
  subst w'. simpl in *. unfold settle in *.
  destruct (filter (λ f, f.1 = p) (frames w)) as [|[p' requestKey] rest] eqn:Hf.
  { assert (Hin' : (p, key) ∈ filter (λ f, f.1 = p) (frames w))
      by (by apply list_elem_of_filter).
    rewrite Hf in Hin'. by apply elem_of_nil in Hin'. }
  assert (Hhead : (p', requestKey) ∈ filter (λ f, f.1 = p) (frames w))
    by (rewrite Hf; constructor).
  apply list_elem_of_filter in Hhead as [Hp Hhead]. simpl in Hp. subst p'.
  assert (requestKey = key) as -> by (by apply (fst_unique (frames w) p)).
  simpl in *. split; [apply lookup_delete_eq|]. split; [|split; [done|]].
  - intros k pr Hk Heq. apply Htrack' in Hk.
    apply list_elem_of_filter in Hk as [Hne _]. simpl in Hne. done.
  - intros f. rewrite list_elem_of_filter. tauto.
Qed.

Lemma settled_request_is_forgotten_witness :
  pendingRequests (self (step (perform (boot None 0) (Do <$> paced)) (Settle 1)))
  !! generateRequestKey "/b" None = None.
Proof.
  apply (settled_request_is_forgotten None 0 (Do <$> paced) 1 (generateRequestKey "/b" None)).
  vm_compute. apply list_elem_of_further, list_elem_of_here.
Defined.

(** *** The cooldown *)

Lemma covers_proceed caller url options (w : World) :
  cooldown_covers_history w →
  cooldown_covers_history (proceed caller url options w).
Proof.
  unfold cooldown_covers_history. intros (Hpast & Htimers & _). simpl.
  split; [|split; [|done]].
  - apply Forall_app. split; [done|]. repeat constructor. lia.
  - apply Forall_app. split.
    + apply Forall_forall. intros tm Hin Hjob. exfalso.
      rewrite Forall_forall in Htimers.
      destruct (cooldownTimeout (self w)) as [h|] eqn:Hct.
      * apply list_elem_of_filter in Hin as [Hne Hin].
        destruct (Htimers tm Hin Hjob) as [[= Heq] _]. done.
      * by destruct (Htimers tm Hin Hjob) as [? _].
    + constructor; [|constructor]. simpl. intros _. split; [done|].
      apply Forall_app. split.
      * eapply Forall_impl; [exact Hpast|]. simpl. intros t Ht. lia.
      * constructor; [lia | constructor].
Qed.

(** Dropping timestamps and disarming timers keeps the invariant. *)
Lemma covers_weaken (w w' : World) :
  clock w' = clock w → config (self w') = config (self w) →
  isCooldown (self w') = isCooldown (self w) →
  cooldownTimeout (self w') = cooldownTimeout (self w) →
  (∀ t, t ∈ requestHistory (self w') → t ∈ requestHistory (self w)) →
  (∀ tm, tm ∈ timers w' → tm ∈ timers w ∨ job tm ≠ ClearCooldown) →
  cooldown_covers_history w → cooldown_covers_history w'.
Proof.
  unfold cooldown_covers_history.
  intros -> -> -> -> Hhist Htm (Hpast & Htimers & Hflag).
  split; [|split].
  - apply Forall_forall. intros t Ht. rewrite Forall_forall in Hpast. auto.
  - apply Forall_forall. intros tm Hin Hjob.
    destruct (Htm tm Hin) as [Hold|Hne]; [|done].
    rewrite Forall_forall in Htimers.
    destruct (Htimers tm Hold Hjob) as [Hct Hdue]. split; [done|].
    apply Forall_forall. intros t Ht. rewrite Forall_forall in Hdue. auto.
  - intros Hcd. specialize (Hflag Hcd).
    apply Forall_forall. intros t Ht. rewrite Forall_forall in Hflag. auto.
Qed.

Lemma covers_step (w : World) (e : Event) :
  cooldown_covers_history w → cooldown_covers_history (step w e).
Proof.
  intros Hw. destruct e as [caller url options|dt|h|p|]; simpl.
  - unfold makeRequest.
    destruct (pendingRequests (self w) !! _).
    { apply (covers_weaken w); auto. }
    assert (Hpruned : cooldown_covers_history
                        (with_self (canMakeRequest (clock w) (self w)).2 w)).
    { unfold canMakeRequest. destruct (isCooldown (self w)) eqn:Hcd.
      - apply (covers_weaken w); auto.
      - apply (covers_weaken w); simpl; auto.
        intros t Ht. by apply list_elem_of_filter in Ht as [_ ?]. }
    destruct (canMakeRequest (clock w) (self w)) as [ok l]. simpl in Hpruned.
    destruct ok.
    + by apply covers_proceed.
    + apply (covers_weaken (with_self l w)); simpl; auto.
      intros tm Htm. apply elem_of_app in Htm as [?|Htm]; [by left|].
      apply list_elem_of_singleton in Htm. subst tm. by right.
  - destruct Hw as (Hpast & Htimers & Hflag).
    unfold cooldown_covers_history. simpl. split; [|split; [done|]].
    + eapply Forall_impl; [exact Hpast|]. simpl. intros t Ht. lia.
    + intros Hcd. eapply Forall_impl; [exact (Hflag Hcd)|]. simpl. intros t Ht. lia.
  - destruct (armed h w) as [tm|] eqn:Harmed; [|done].
    case_bool_decide as Hdue; [|done].
    apply armed_elem_of in Harmed as [Hin _].
    destruct (job tm) as [|caller url options] eqn:Hjob; simpl.
    + destruct Hw as (Hpast & Htimers & Hflag).
      unfold cooldown_covers_history. simpl. split; [done|]. split.
      * by apply Forall_filter_keep.
      * intros _. rewrite Forall_forall in Htimers.
        destruct (Htimers tm Hin Hjob) as [_ Hcover].
        eapply Forall_impl; [exact Hcover|]. simpl. intros t Ht. lia.
    + apply covers_proceed. apply (covers_weaken w); simpl; auto.
      intros t Ht. left. by apply list_elem_of_filter in Ht as [_ ?].
  - unfold settle. destruct (filter _ (frames w)) as [|[? ?] ?]; [done|].
    apply (covers_weaken w); auto.
  - apply (covers_weaken w); simpl; auto.
    intros t Ht. by apply list_elem_of_filter in Ht as [_ ?].
Qed.

Lemma covers_act (w : World) (a : Action) :
  cooldown_covers_history w → cooldown_covers_history (act w a).
Proof.
  intros Hw. destruct a as [e|env| |]; simpl.
  - by apply covers_step.
  - rewrite getStatus_prune. apply (covers_weaken w); simpl; auto.
    intros t Ht. by apply list_elem_of_filter in Ht as [_ ?].
  - apply (covers_weaken w); auto.
  - destruct Hw as (Hpast & Htimers & Hflag).
    unfold cooldown_covers_history. simpl. split; [constructor|]. split; [|constructor].
    apply Forall_forall. intros tm Hin Hjob. exfalso.
    rewrite Forall_forall in Htimers.
    destruct (cooldownTimeout (self w)) as [h|] eqn:Hct.
    + apply list_elem_of_filter in Hin as [Hne Hin].
      destruct (Htimers tm Hin Hjob) as [[= Heq] _]. done.
    + by destruct (Htimers tm Hin Hjob) as [? _].
Qed.

Lemma covers_perform (w : World) (acts : list Action) :
  cooldown_covers_history w → cooldown_covers_history (perform w acts).
Proof.
  revert w. induction acts as [|a acts IH]; intros w Hw; [done|].
  simpl. apply IH. by apply covers_act.
Qed.

Lemma covers_boot (env : Env) (t0 : Z) : cooldown_covers_history (boot env t0).
Proof. unfold cooldown_covers_history, boot. simpl. repeat constructor. Qed.

(** X5: a request that passes the admission check is sent at least one
    cooldown after every request still recorded in the history: whenever
    the cooldown flag is off, every recorded timestamp is at least
    [cooldownMs] old, and the request is recorded at the current time. *)
Theorem admitted_request_is_spaced
    (env : Env) (t0 : Z) (acts : list Action) caller url options :
  let w := perform (boot env t0) acts in
  pendingRequests (self w) !! generateRequestKey url options = None →
  blocked w (Call caller url options) = false →
  let w' := step w (Call caller url options) in
  Forall (λ t, t + cooldownMs (config (self w)) ≤ clock w) (requestHistory (self w)) ∧
  ∃ recorded, requestHistory (self w') = recorded ++ [clock w] ∧
              Forall (λ t, t + cooldownMs (config (self w)) ≤ clock w) recorded ∧
              fetches w' = fetches w ++
                [{| fetch_promise := next_promise w; fetch_url := url;
                    fetch_options := options |}].
Proof.
  intros w Hnone Hadm w'.
  destruct (covers_perform (boot env t0) acts (covers_boot env t0)) as (_ & _ & Hflag).
  fold w in Hflag. subst w'. simpl in Hadm. rewrite Hnone in Hadm.
  apply negb_false_iff in Hadm.
  assert (Hcan : canMakeRequest (clock w) (self w)
                 = (true, cleanupRequestHistory (clock w) (self w))).
  { unfold canMakeRequest in *. destruct (isCooldown (self w)); [done|].
    cbn [fst] in Hadm. by rewrite Hadm. }
  assert (Hcd : isCooldown (self w) = false).
  { unfold canMakeRequest in Hcan. by destruct (isCooldown (self w)). }
  specialize (Hflag Hcd). split; [done|].
  simpl. unfold makeRequest. rewrite Hnone, Hcan.
  eexists. split; [reflexivity|]. split; [|done].
  simpl. by apply Forall_filter_keep.
Qed.

Lemma admitted_request_is_spaced_witness :
  Forall (λ t, t + 2000 ≤ 2000)
    (requestHistory (self (perform (boot None 0)
                             [Do (Call 0 "/a" None); Do (Elapse 2000); Do (Fire 1)]))).
Proof.
  apply (admitted_request_is_spaced None 0
           [Do (Call 0 "/a" None); Do (Elapse 2000); Do (Fire 1)] 1 "/b" None);
    reflexivity.
Defined.

(** X6: [reset] puts the limiter back to an empty window without cooldown:
    whatever the state was, the next request is sent at once, also a
    request that was pending before the reset. *)
Theorem reset_admits_next (w : World) caller url options :
  0 < maxRequests (config (self w)) →
  let w' := step (reset w) (Call caller url options) in
  fetches w' = fetches w ++
    [{| fetch_promise := next_promise w; fetch_url := url; fetch_options := options |}] ∧
  requestHistory (self w') = [clock w] ∧
  handed w' = handed w ++ [(caller, next_promise w)] ∧
  frames w' = frames w ++ [(next_promise w, generateRequestKey url options)].
Proof.
  intros Hmax. simpl. unfold makeRequest, reset. simpl.
  rewrite lookup_empty. unfold canMakeRequest. simpl.
  rewrite bool_decide_eq_true_2 by (simpl; lia). done.
Qed.

Lemma reset_admits_next_witness :
  requestHistory
    (self (step (reset (run (boot None 0) burst)) (Call 40 "/again" None)))
  = [2000].
Proof.
  apply (reset_admits_next (run (boot None 0) burst) 40 "/again" None).
  vm_compute. reflexivity.
Defined.

(** *** The request key *)

Lemma unstringify_char (c : ascii) (r : string) :
  unstringify (json_char c +:+ r) = String c (unstringify r).
Proof. destruct c as [[] [] [] [] [] [] [] []]; reflexivity. Qed.

Lemma append_assoc (a b c : string) : (a +:+ b) +:+ c = a +:+ (b +:+ c).
Proof.
  induction a as [|x a IH]; [done|].
  change (String x ((a +:+ b) +:+ c) = String x (a +:+ (b +:+ c))).
  by rewrite IH.
Qed.

(** [stringify] can be read back. *)
Lemma unstringify_chars (s r : string) :
  unstringify (json_chars s +:+ String dquote r) = s.
Proof.
  induction s as [|c s IH]; [done|].
  change (json_chars (String c s)) with (json_char c +:+ json_chars s).
  rewrite append_assoc, unstringify_char. by rewrite IH.
Qed.

Lemma stringify_inj (s1 s2 : string) : stringify s1 = stringify s2 → s1 = s2.
Proof.
  unfold stringify. intros [= H].
  rewrite <- (unstringify_chars s1 EmptyString), <- (unstringify_chars s2 EmptyString).
  by rewrite H.
Qed.

Lemma append_inj_r (a b c : string) : a +:+ b = a +:+ c → b = c.
Proof. apply (inj (String.app a)). Qed.

Lemma request_key_parts (url : string) (options : option RequestInit) :
  generateRequestKey url options
  = request_method options +:+ ":" +:+ url +:+ ":" +:+
    match request_body options with Some b => stringify b | None => "" end.
Proof.
  unfold generateRequestKey, request_method, request_body.
  destruct (options ≫= body) as [[|c b]|]; reflexivity.
Qed.

(** X13: for one method and one URL the request key tells the bodies
    apart: two requests have the same key exactly when they send the same
    body (a missing body and the empty string both count as no body).  So
    requests that differ in their body are never deduplicated with one
    another. *)
Theorem request_key_tells_bodies_apart
    (url : string) (o1 o2 : option RequestInit) :
  request_method o1 = request_method o2 →
  (generateRequestKey url o1 = generateRequestKey url o2
   ↔ request_body o1 = request_body o2).
Proof.
  intros Hm. rewrite !request_key_parts, Hm. split.
  - intros H. do 4 apply append_inj_r in H.
    destruct (request_body o1) as [b1|], (request_body o2) as [b2|]; try done.
    by apply stringify_inj in H as ->.
  - by intros ->.
Qed.

Lemma request_key_tells_bodies_apart_witness :
  generateRequestKey "/api/tokens/batch-metadata"
    (Some {| method := Some "POST"; headers := []; body := Some "[1]" |})
  ≠ generateRequestKey "/api/tokens/batch-metadata"
      (Some {| method := Some "POST"; headers := []; body := Some "[2]" |}).
Proof.
  intros H.
  apply (request_key_tells_bodies_apart "/api/tokens/batch-metadata"
           (Some {| method := Some "POST"; headers := []; body := Some "[1]" |})
           (Some {| method := Some "POST"; headers := []; body := Some "[2]" |})
           eq_refl) in H.
  discriminate H.
Defined.

(** *** Sleeping callers *)

Lemma fresh_filter (P : Timer → Prop) `{∀ tm, Decision (P tm)} (w w' : World) :
  timers w' = filter P (timers w) → next_handle w' = next_handle w →
  cooldownTimeout (self w') = cooldownTimeout (self w) ∨ cooldownTimeout (self w') = None →
  handles_are_fresh w → handles_are_fresh w'.
Proof.
  unfold handles_are_fresh. intros -> -> Hct (Hnd & Hlt & Hcd). split; [|split].
  - eapply sublist_NoDup; [exact Hnd|]. apply fmap_sublist, sublist_filter.
  - by apply Forall_filter_keep.
  - intros h Hh. destruct Hct as [Hct|Hct]; [|congruence].
    rewrite Hct in Hh. destruct (Hcd h Hh) as [? Hjob]. split; [done|].
    intros tm Htm. apply list_elem_of_filter in Htm as [_ Htm]. auto.
Qed.

Lemma fresh_same (w w' : World) :
  timers w' = timers w → next_handle w' = next_handle w →
  cooldownTimeout (self w') = cooldownTimeout (self w) →
  handles_are_fresh w → handles_are_fresh w'.
Proof. unfold handles_are_fresh. by intros -> -> ->. Qed.

Lemma fresh_snoc (w w' : World) (j : Task) (d : Z) :
  timers w' = timers w ++ [{| handle := next_handle w; due := d; job := j |}] →
  next_handle w' = S (next_handle w) →
  (cooldownTimeout (self w') = cooldownTimeout (self w) ∨
   cooldownTimeout (self w') = Some (next_handle w) ∧ j = ClearCooldown) →
  handles_are_fresh w → handles_are_fresh w'.
Proof.
  unfold handles_are_fresh. intros -> -> Hct (Hnd & Hlt & Hcd).
  assert (Hold : ∀ tm, tm ∈ timers w → (handle tm < next_handle w)%nat).
  { by apply Forall_forall. }
  split; [|split].
  - rewrite fmap_app. apply NoDup_app. split; [done|]. split; [|apply NoDup_singleton].
    intros h Hh Hh'. apply list_elem_of_singleton in Hh'. subst h.
    apply list_elem_of_fmap in Hh as (tm & Heq & Htm).
    specialize (Hold tm Htm). simpl in *. lia.
  - apply Forall_app. split.
    + eapply Forall_impl; [exact Hlt|]. simpl. intros tm Htm. lia.
    + constructor; [simpl; lia | constructor].
  - intros h Hh. destruct Hct as [Hct|[Hct ->]].
    + rewrite Hct in Hh. destruct (Hcd h Hh) as [Hhlt Hjob]. split; [lia|].
      intros tm Htm Heq. apply elem_of_app in Htm as [Htm|Htm]; [by apply Hjob|].
      apply list_elem_of_singleton in Htm. subst tm. simpl in *. lia.
    + rewrite Hct in Hh. injection Hh as <-. split; [lia|].
      intros tm Htm Heq. apply elem_of_app in Htm as [Htm|Htm].
      * specialize (Hold tm Htm). lia.
      * apply list_elem_of_singleton in Htm. by subst tm.
Qed.

Lemma fresh_proceed caller url options (w : World) :
  handles_are_fresh w → handles_are_fresh (proceed caller url options w).
Proof.
  intros Hw.
  set (mid := {| clock := clock w; self := self w;
                 timers := match cooldownTimeout (self w) with
                           | Some h => clearTimeout h (timers w)
                           | None => timers w
                           end;
                 next_handle := next_handle w; next_promise := next_promise w;
                 fetches := fetches w; frames := frames w; handed := handed w |}).
  assert (Hmid : handles_are_fresh mid).
  { destruct (cooldownTimeout (self w)) as [h|] eqn:Hct.
    - apply (fresh_filter (λ t, handle t ≠ h) w); subst mid; simpl; auto;
        try (by rewrite Hct).
    - apply (fresh_same w); subst mid; simpl; auto; try (by rewrite Hct). }
  apply (fresh_snoc mid _ ClearCooldown (clock w + cooldownMs (config (self w))));
    subst mid; simpl; auto.
Qed.

Lemma fresh_step (w : World) (e : Event) :
  handles_are_fresh w → handles_are_fresh (step w e).
Proof.
  intros Hw. destruct e as [caller url options|dt|h|p|]; simpl.
  - unfold makeRequest.
    destruct (pendingRequests (self w) !! _); [by apply (fresh_same w)|].
    assert (Hct : cooldownTimeout (canMakeRequest (clock w) (self w)).2
                  = cooldownTimeout (self w)).
    { unfold canMakeRequest. by destruct (isCooldown (self w)). }
    destruct (canMakeRequest (clock w) (self w)) as [ok l]. simpl in Hct.
    destruct ok.
    + apply fresh_proceed. by apply (fresh_same w).
    + eapply (fresh_snoc (with_self l w)); simpl; eauto.
      by apply (fresh_same w).
  - by apply (fresh_same w).
  - destruct (armed h w) as [tm|]; [|done].
    case_bool_decide; [|done].
    set (mid := {| clock := clock w; self := self w;
                   timers := clearTimeout h (timers w);
                   next_handle := next_handle w; next_promise := next_promise w;
                   fetches := fetches w; frames := frames w; handed := handed w |}).
    assert (Hmid : handles_are_fresh mid).
    { apply (fresh_filter (λ t, handle t ≠ h) w); subst mid; simpl; auto. }
    destruct (job tm); simpl.
    + by apply (fresh_same mid).
    + by apply fresh_proceed.
  - unfold settle. destruct (filter _ (frames w)) as [|[? ?] ?]; [done|].
    by apply (fresh_same w).
  - by apply (fresh_same w).
Qed.

Lemma fresh_act (w : World) (a : Action) :
  handles_are_fresh w → handles_are_fresh (act w a).
Proof.
  intros Hw. destruct a as [e|env| |]; simpl.
  - by apply fresh_step.
  - rewrite getStatus_prune. by apply (fresh_same w).
  - by apply (fresh_same w).
  - destruct (cooldownTimeout (self w)) as [h|] eqn:Hct.
    + apply (fresh_filter (λ t, handle t ≠ h) w); unfold reset; simpl; auto;
        try (by rewrite Hct).
    + destruct Hw as (Hnd & Hlt & _). unfold handles_are_fresh, reset. simpl.
      rewrite Hct. split; [done|]. split; [done|]. intros h Hh. done.
Qed.

Lemma fresh_perform (w : World) (acts : list Action) :
  handles_are_fresh w → handles_are_fresh (perform w acts).
Proof.
  revert w. induction acts as [|a acts IH]; intros w Hw; [done|].
  simpl. apply IH. by apply fresh_act.
Qed.

Lemma fresh_boot (env : Env) (t0 : Z) : handles_are_fresh (boot env t0).
Proof.
  unfold handles_are_fresh, boot. simpl. split; [constructor|]. split; [constructor|].
  intros h Hh. done.
Qed.

Lemma handle_unique (l : list Timer) (t1 t2 : Timer) :
  NoDup (handle <$> l) → t1 ∈ l → t2 ∈ l → handle t1 = handle t2 → t1 = t2.
Proof.
  induction l as [|x l IH]; intros Hnd H1 H2 Heq.
  - by apply elem_of_nil in H1.
  - rewrite fmap_cons in Hnd. apply NoDup_cons in Hnd as [Hnotin Hnd].
    apply elem_of_cons in H1 as [->|H1]; apply elem_of_cons in H2 as [->|H2].
    + done.
    + exfalso. apply Hnotin. rewrite Heq. apply list_elem_of_fmap. eauto.
    + exfalso. apply Hnotin. rewrite <- Heq. apply list_elem_of_fmap. eauto.
    + by apply IH.
Qed.

Lemma armed_unique (w : World) (tm : Timer) :
  handles_are_fresh w → tm ∈ timers w → armed (handle tm) w = Some tm.
Proof.
  intros (Hnd & _ & _) Htm. unfold armed.
  assert (Hin : tm ∈ filter (λ t, handle t = handle tm) (timers w))
    by (by apply list_elem_of_filter).
  destruct (filter _ (timers w)) as [|t ts] eqn:Hf; [by apply elem_of_nil in Hin|].
  simpl. f_equal.
  assert (Ht : t ∈ filter (λ t, handle t = handle tm) (timers w))
    by (rewrite Hf; constructor).
  apply list_elem_of_filter in Ht as [Heq Ht].
  by apply (handle_unique (timers w)).
Qed.

(** A sleeping caller survives the cooldown timer being replaced. *)
Lemma sleeper_survives_proceed c u o (w : World) (tm : Timer) caller url options :
  handles_are_fresh w → tm ∈ timers w →
  job tm = ResumeRequest caller url options →
  tm ∈ timers (proceed c u o w).
Proof.
  intros (_ & _ & Hcd) Htm Hjob. simpl. apply elem_of_app. left.
  destruct (cooldownTimeout (self w)) as [h|] eqn:Hct; [|done].
  apply list_elem_of_filter. split; [|done].
  intros Heq. destruct (Hcd h eq_refl) as [_ Hc].
  rewrite (Hc tm Htm Heq) in Hjob. done.
Qed.

(** X14: a caller that sleeps in the backoff is never dropped.  In every
    state the limiter can reach, the timer of a sleeping caller stays armed
    through every event and every call of [getStatus], [clearPendingRequests]
    and [reset], until it fires; and when it fires, once it is due, the
    request of that caller is sent. *)
Theorem sleeper_is_never_dropped
    (env : Env) (t0 : Z) (acts : list Action) (a : Action)
    (tm : Timer) caller url options :
  let w := perform (boot env t0) acts in
  tm ∈ timers w →
  job tm = ResumeRequest caller url options →
  ((a = Do (Fire (handle tm)) → clock w < due tm) → tm ∈ timers (act w a)) ∧
  (due tm ≤ clock w →
   fetches (step w (Fire (handle tm)))
   = fetches w ++ [{| fetch_promise := next_promise w; fetch_url := url;
                      fetch_options := options |}]).
Proof.
  intros w Htm Hjob.
  pose proof (fresh_perform (boot env t0) acts (fresh_boot env t0)) as Hw.
  fold w in Hw. pose proof (armed_unique w tm Hw Htm) as Harmed. split.
  - intros Hnot. destruct a as [e|env'| |]; simpl.
    + destruct e as [c u o|dt|h|p|]; simpl.
      * unfold makeRequest.
        destruct (pendingRequests (self w) !! _); [done|].
        assert (Hct : cooldownTimeout (canMakeRequest (clock w) (self w)).2
                      = cooldownTimeout (self w)).
        { unfold canMakeRequest. by destruct (isCooldown (self w)). }
        destruct (canMakeRequest (clock w) (self w)) as [ok l]. simpl in Hct.
        destruct ok.
        -- eapply sleeper_survives_proceed; eauto. by apply (fresh_same w).
        -- simpl. apply elem_of_app. by left.
      * done.
      * destruct (decide (h = handle tm)) as [->|Hne].
        { rewrite Harmed. rewrite bool_decide_eq_false_2; [done|].
          specialize (Hnot eq_refl). lia. }
        destruct (armed h w) as [tm'|]; [|done].
        case_bool_decide; [|done].
        assert (Hkept : tm ∈ clearTimeout h (timers w)).
        { apply list_elem_of_filter. split; [congruence | done]. }
        destruct (job tm') as [|c0 u0 o0]; [done|].
        unfold run_task.
        eapply sleeper_survives_proceed; [|exact Hkept|exact Hjob].
        apply (fresh_filter (λ t, handle t ≠ h) w); simpl; auto.
      * unfold settle. by destruct (filter _ (frames w)) as [|[? ?] ?].
      * done.
    + by rewrite getStatus_prune.
    + done.
    + unfold reset. simpl. destruct Hw as (_ & _ & Hcd).
      destruct (cooldownTimeout (self w)) as [h|] eqn:Hct; [|done].
      apply list_elem_of_filter. split; [|done].
      intros Heq. destruct (Hcd h eq_refl) as [_ Hc].
      rewrite (Hc tm Htm Heq) in Hjob. done.
  - intros Hdue. simpl. rewrite Harmed, bool_decide_eq_true_2 by done.
    by rewrite Hjob.
Qed.

Lemma sleeper_is_never_dropped_witness :
  {| handle := 2; due := 2000; job := ResumeRequest 1 "/b" None |}
  ∈ timers (act (perform (boot None 0)
                   [Do (Call 0 "/a" None); Do (Call 1 "/b" None)]) Reset).
Proof.
  apply (sleeper_is_never_dropped None 0
           [Do (Call 0 "/a" None); Do (Call 1 "/b" None)] Reset
           {| handle := 2; due := 2000; job := ResumeRequest 1 "/b" None |}
           1 "/b" None).
  - vm_compute. apply list_elem_of_further, list_elem_of_here.
  - reflexivity.
  - discriminate.
Defined.

End RateLimiterMore.

(** ** More on the metadata cache: statistics, clearing, coalescing *)

Module MetadataCacheMore.
Import Js MetadataCache Scenarios.Cache MetadataCacheFacts.

(** *** The order of [sort] *)

Lemma leb_trans (a b c : string) :
  String.leb a b = true → String.leb b c = true → String.leb a c = true.
Proof.
  unfold String.leb. revert b c.
  induction a as [|x a IH]; intros [|y b] [|z c]; simpl; try done.
  unfold Ascii.compare.
  destruct (N.compare_spec (N_of_ascii x) (N_of_ascii y)) as [Hxy|Hxy|Hxy];
    destruct (N.compare_spec (N_of_ascii y) (N_of_ascii z)) as [Hyz|Hyz|Hyz];
    destruct (N.compare_spec (N_of_ascii x) (N_of_ascii z)) as [Hxz|Hxz|Hxz];
    try done; try lia.
  apply IH.
Qed.

#[local] Instance str_le_trans : Transitive str_le.
Proof.
  intros a b c. unfold str_le. rewrite !Is_true_true. apply leb_trans.
Qed.

#[local] Instance str_le_antisymm : AntiSymm (=) str_le.
Proof.
  intros a b. unfold str_le. rewrite !Is_true_true. apply String.leb_antisym.
Qed.

(** Arrays with the same elements, in whatever order, sort to the same
    array. *)
Lemma sort_permutation (l1 l2 : list string) : l1 ≡ₚ l2 → sort l1 = sort l2.
Proof.
  intros Hp. unfold sort. apply (Sorted_unique str_le).
  - apply Sorted_merge_sort, _.
  - apply Sorted_merge_sort, _.
  - by rewrite !merge_sort_Permutation.
Qed.

(** *** Coalescing *)

Lemma sort_nil_inv (l : list string) : sort l = [] → l = [].
Proof.
  intros Hs. apply Permutation_nil_r. rewrite <- Hs.
  unfold sort. by rewrite merge_sort_Permutation.
Qed.

(** X7: two calls for the same addresses, in whatever order, are coalesced
    while the first batch is registered and younger than five seconds: the
    second call is handed the promise of the first batch and sends nothing.
    From five seconds on the registered batch is not reused. *)
Theorem same_addresses_coalesce
    (w w1 later : World) (a1 a2 : nat) (l1 l2 : list string)
    (p : nat) (batchKey : string) (cachedResults : list TokenMetadata) :
  heap w !! a1 = Some l1 →
  getBatchTokenMetadata a1 w = (w1, Awaiting p batchKey cachedResults) →
  heap later !! a2 = Some l2 → l2 ≡ₚ l1 →
  pendingBatchRequests later !! batchKey = pendingBatchRequests w1 !! batchKey →
  let second := getBatchTokenMetadata a2 later in
  (clock later - clock w < BATCH_TIMEOUT →
   second.2 = Joined p ∧ requests second.1 = requests later ∧
   cache second.1 = cache later) ∧
  (BATCH_TIMEOUT ≤ clock later - clock w → ∀ p', second.2 ≠ Joined p').
Proof.
  intros Hl1 Hfirst Hl2 Hperm Hreg.
  assert (Hne1 : l1 ≠ []).
  { intros ->. rewrite getBatch_empty in Hfirst; [done|]. unfold read. by rewrite Hl1. }
  assert (Hne2 : l2 ≠ []).
  { intros ->. by apply Permutation_nil_l in Hperm. }
  rewrite (getBatch_nonempty w a1 l1 Hl1 Hne1) in Hfirst.
  destruct (reusable _ _); [done|].
  case_bool_decide; [done|]. injection Hfirst as <- <- <- <-.
  simpl in Hreg. rewrite lookup_insert_eq in Hreg.
  cbv zeta. rewrite (getBatch_nonempty later a2 l2 Hl2 Hne2).
  rewrite (sort_permutation l2 l1 Hperm), Hreg. simpl. split; intros Hage.
  - rewrite bool_decide_eq_true_2 by done. done.
  - rewrite bool_decide_eq_false_2 by lia.
    intros p'. by case_bool_decide.
Qed.

Lemma same_addresses_coalesce_witness :
  (getBatchTokenMetadata 1 (getBatchTokenMetadata 0 warm).1).2 = Joined 0.
Proof.
  apply (same_addresses_coalesce warm (getBatchTokenMetadata 0 warm).1
           (getBatchTokenMetadata 0 warm).1 0 1 ["0xb"; "0xA"] ["0xA"; "0xb"]
           0 "0xA,0xb" [token "0xA"]).
  - reflexivity.
  - reflexivity.
  - reflexivity.
  - apply perm_swap.
  - reflexivity.
  - vm_compute. reflexivity.
Defined.

(** *** From a resolved batch to the next call *)

Lemma all_hits (w : World) (l : list string) (P : string → TokenMetadata → Prop) :
  (∀ x, x ∈ l → ∃ t, lookupValid w x = Some t ∧ P x t) →
  filter (λ a, lookupValid w a = None) l = [] ∧
  Forall2 P l (omap (lookupValid w) l).
Proof.
  induction l as [|x l IH]; intros Hall; [by split; constructor|].
  destruct (Hall x) as (t & Ht & HP); [left|].
  destruct IH as [IH1 IH2]; [intros y Hy; apply Hall; by right|].
  rewrite filter_cons. simpl. rewrite Ht. simpl. split; [done|].
  by constructor.
Qed.

Lemma all_misses (w : World) (l : list string) :
  (∀ x, lookupValid w x = None) →
  filter (λ a, lookupValid w a = None) l = l ∧ omap (lookupValid w) l = [].
Proof.
  intros Hnone. induction l as [|x l [IH1 IH2]]; [done|].
  rewrite filter_cons. simpl. rewrite Hnone. simpl. split; [|done].
  by rewrite IH1.
Qed.

(** X8: what a batch has fetched is served from the cache afterwards.
    Once a batch has resolved with the records [apiResults], a call made
    before their time to live is over, for addresses that all have a record
    among them (up to letter case), returns one record per address without
    sending a request, provided no young batch is pending under the key of
    the call. *)
Theorem fetched_batch_is_served_from_cache
    (w later : World) (batchKey : string)
    (cachedResults apiResults : list TokenMetadata)
    (a : nat) (l : list string) :
  cache later
  = cache (getBatchTokenMetadata_resume batchKey cachedResults (Normal apiResults) w).1 →
  clock later < clock w + CACHE_DURATION →
  heap later !! a = Some l → l ≠ [] →
  (∀ x, x ∈ l → ∃ t, t ∈ apiResults ∧ toLowerCase (address t) = toLowerCase x) →
  reusable (clock later) (pendingBatchRequests later !! join "," (sort l)) = None →
  let again := getBatchTokenMetadata a later in
  requests again.1 = requests later ∧
  ∃ result, again.2 = Done result ∧
    Forall2 (λ x t, toLowerCase (address t) = toLowerCase x) (sort l) result.
Proof.
  intros Hcache Hfresh Hl Hne Hcover Hnone. cbv zeta.
  rewrite (getBatch_nonempty later a l Hl Hne), Hnone.
  destruct (all_hits later (sort l)
              (λ x t, toLowerCase (address t) = toLowerCase x)) as [Hu Hc].
  { intros x Hx.
    assert (Hxl : x ∈ l).
    { unfold sort in Hx. by rewrite merge_sort_Permutation in Hx. }
    destruct (Hcover x Hxl) as (t & Ht & Hkey).
    destruct (cacheTokens_written apiResults w t Ht) as (last & _ & Hlast & Hentry).
    exists last. split; [|congruence].
    unfold lookupValid, isCacheValid. rewrite Hcache. simpl.
    rewrite <- Hkey, Hentry. simpl.
    rewrite bool_decide_eq_true_2; [done | lia]. }
  rewrite Hu. simpl. eauto.
Qed.

Lemma fetched_batch_is_served_from_cache_witness :
  requests (getBatchTokenMetadata 1
              (getBatchTokenMetadata_resume "0xA,0xb" [token "0xA"]
                 (Normal [token "0xa"; token "0xB"]) warm).1).1
  = requests warm.
Proof.
  apply (fetched_batch_is_served_from_cache warm
           (getBatchTokenMetadata_resume "0xA,0xb" [token "0xA"]
              (Normal [token "0xa"; token "0xB"]) warm).1
           "0xA,0xb" [token "0xA"] [token "0xa"; token "0xB"] 1 ["0xA"; "0xb"]).
  - reflexivity.
  - vm_compute. reflexivity.
  - reflexivity.
  - discriminate.
  - intros x Hx. apply elem_of_cons in Hx as [->|Hx].
    + exists (token "0xa"). split; [left | reflexivity].
    + apply list_elem_of_singleton in Hx as ->.
      exists (token "0xB"). split; [right; left | reflexivity].
  - vm_compute. reflexivity.
Defined.

(** *** Clearing *)

(** X9: after [clearCache] nothing is served and nothing is joined: every
    lookup misses, the statistics are all zero, and a call for a non-empty
    array sends a request for all of its addresses, the batches still in
    flight notwithstanding. *)
Theorem clearCache_forgets_everything (w : World) (a : nat) (l : list string) :
  heap w !! a = Some l → l ≠ [] →
  let cleared := clearCache w in
  let started := getBatchTokenMetadata a cleared in
  (∀ x, lookupValid cleared x = None) ∧
  getCacheStats cleared
  = {| totalEntries := 0; validEntries := 0; expiredEntries := 0; pendingBatches := 0 |} ∧
  started.2 = Awaiting (next_promise w) (join "," (sort l)) [] ∧
  requests started.1
  = requests w ++
      [{| req_promise := next_promise w; req_url := "/api/tokens/batch-metadata";
          req_options :=
            Some {| RateLimiter.method := Some "POST";
                    RateLimiter.headers := [("Content-Type", "application/json")];
                    RateLimiter.body := Some (batch_body (sort l)) |} |}].
Proof.
  intros Hl Hne. cbv zeta.
  assert (Hmiss : ∀ x, lookupValid (clearCache w) x = None).
  { intros x. unfold lookupValid, clearCache. simpl. by rewrite lookup_empty. }
  split; [done|]. split.
  { unfold getCacheStats, clearCache. simpl.
    by rewrite map_fold_empty, !map_size_empty. }
  rewrite (getBatch_nonempty (clearCache w) a l) by done.
  unfold clearCache at 1 2. simpl. rewrite lookup_empty. simpl.
  destruct (all_misses (clearCache w) (sort l) Hmiss) as [-> ->].
  rewrite bool_decide_eq_false_2; [done|].
  intros Hlen. apply Hne, sort_nil_inv. by apply length_zero_iff_nil.
Qed.

Lemma clearCache_forgets_everything_witness :
  (getBatchTokenMetadata 0 (clearCache warm)).2 = Awaiting 0 "0xA,0xb" [].
Proof.
  apply (clearCache_forgets_everything warm 0 ["0xb"; "0xA"]);
    [reflexivity | discriminate].
Defined.

(** *** Statistics and the sweep *)

(** The counters of the loop, for any cache. *)
Lemma count_entries (now : Z) (m : gmap string CacheEntry) :
  let counters := map_fold (count_entry now) (0%nat, 0%nat) m in
  counters.1 = size (filter (λ kv, now < expiresAt kv.2) m) ∧
  counters.2 = size (filter (λ kv, ¬ now < expiresAt kv.2) m) ∧
  (counters.1 + counters.2)%nat = size m.
Proof.
  cbv zeta.
  apply (map_fold_weak_ind (λ counters m,
    counters.1 = size (filter (λ kv, now < expiresAt kv.2) m) ∧
    counters.2 = size (filter (λ kv, ¬ now < expiresAt kv.2) m) ∧
    (counters.1 + counters.2)%nat = size m)).
  - by rewrite !map_filter_empty, !map_size_empty.
  - intros key entry m' [v e] Hfresh (Hv & He & Hsum). simpl in *.
    rewrite map_size_insert_None by done.
    unfold count_entry. case_bool_decide as Hvalid; simpl.
    + rewrite map_filter_insert_True by done.
      rewrite map_filter_insert_False by (simpl; tauto).
      rewrite map_size_insert_None by (by rewrite map_lookup_filter_None; left).
      rewrite delete_id by done. split; [lia|]. split; [done | lia].
    + rewrite map_filter_insert_False by done.
      rewrite map_filter_insert_True by done.
      rewrite map_size_insert_None by (by rewrite map_lookup_filter_None; left).
      rewrite delete_id by done. split; [done|]. split; lia.
Qed.

(** X10: the statistics add up: every entry is counted once, as valid when
    a lookup at this time would serve it and as expired otherwise. *)
Theorem stats_account_for_every_entry (w : World) :
  let stats := getCacheStats w in
  (validEntries stats + expiredEntries stats)%nat = totalEntries stats ∧
  validEntries stats
  = size (filter (λ kv, isCacheValid (clock w) kv.2 = true) (cache w)) ∧
  expiredEntries stats
  = size (filter (λ kv, isCacheValid (clock w) kv.2 = false) (cache w)).
Proof.
  cbv zeta. unfold getCacheStats. simpl.
  destruct (count_entries (clock w) (cache w)) as (Hv & He & Hsum).
  split; [done|]. rewrite Hv, He. split; f_equal; apply map_filter_ext;
    intros key entry _; unfold isCacheValid; simpl.
  - by rewrite bool_decide_eq_true.
  - by rewrite bool_decide_eq_false.
Qed.

(** X11: the sweep deletes an entry only when the clock is strictly past
    its expiry, while a lookup already refuses it at its expiry.  So the
    sweep keeps the number of valid entries, and the entries still counted
    as expired after it are exactly those that expire at this very
    millisecond. *)
Theorem sweep_keeps_valid_and_boundary (w : World) :
  let before := getCacheStats w in
  let after := getCacheStats (clearExpiredEntries w) in
  validEntries after = validEntries before ∧
  expiredEntries after
  = size (filter (λ kv, expiresAt kv.2 = clock w) (cache w)) ∧
  (totalEntries after ≤ totalEntries before)%nat ∧
  pendingBatches after = pendingBatches before.
Proof.
  cbv zeta. unfold getCacheStats, clearExpiredEntries, cleanupExpiredEntries. simpl.
  destruct (count_entries (clock w) (cache w)) as (Hv & He & Hsum).
  destruct (count_entries (clock w)
              (filter (λ kv, ¬ clock w > expiresAt kv.2) (cache w)))
    as (Hv' & He' & Hsum').
  rewrite Hv', He', Hv. rewrite !map_filter_filter.
  split; [|split; [|split; [|done]]].
  - f_equal. apply map_filter_ext. intros key entry _. simpl. lia.
  - f_equal. apply map_filter_ext. intros key entry _. simpl. lia.
  - apply map_subseteq_size, map_filter_subseteq.
Qed.

(** *** Preloading *)

(** X12: preloading never rejects.  A request that throws leaves the cache
    as it is; a request that succeeds writes every record of its answer, and
    each of them is then returned by [getTokenMetadata] as a cache hit,
    without a request, until its time to live is over. *)
Theorem preload_warms_the_cache
    (w : World) (settled : completion BatchResponse) (T' : Z) :
  let finished := preloadPopularTokens_resume settled w in
  finished.2 = Normal () ∧
  match settled with
  | Throw error => finished.1 = w
  | Normal response =>
      ∀ t, t ∈ default [] (tokens response) →
        clock w ≤ T' < clock w + CACHE_DURATION →
        ∃ last, last ∈ default [] (tokens response) ∧
          toLowerCase (address last) = toLowerCase (address t) ∧
          getTokenMetadata (address t) (with_clock T' finished.1)
          = (with_clock T' finished.1, Hit last)
  end.
Proof.
  cbv zeta. destruct settled as [response|error]; simpl; [|done].
  split; [done|]. intros t Ht HT.
  destruct (cacheTokens_written (default [] (tokens response)) w t Ht)
    as (last & Hlast & Hkey & Hentry).
  exists last. split; [done|]. split; [done|].
  unfold getTokenMetadata, lookupValid, isCacheValid. simpl.
  rewrite Hentry. simpl. rewrite bool_decide_eq_true_2; [done | lia].
Qed.

Lemma preload_warms_the_cache_witness :
  ∃ last, toLowerCase (address last) = "0xc" ∧
    getTokenMetadata "0xC"
      (with_clock 5000
         (preloadPopularTokens_resume (Normal {| tokens := Some [token "0xC"] |}) warm).1)
    = (with_clock 5000
         (preloadPopularTokens_resume (Normal {| tokens := Some [token "0xC"] |}) warm).1,
       Hit last).
Proof.
  pose proof (preload_warms_the_cache warm
                (Normal {| tokens := Some [token "0xC"] |}) 5000) as [_ H].
  cbv beta iota zeta in H.
  destruct (H (token "0xC")) as (last & _ & Hkey & Hhit).
  - simpl. apply list_elem_of_here.
  - vm_compute. split; [discriminate | reflexivity].
  - exists last. split; [exact Hkey | exact Hhit].
Defined.

End MetadataCacheMore.

(** ** Properties of the manual token registry *)

Module ManualTokensFacts.
Import Js ManualTokens.

Lemma find_snoc_fresh (wanted : string) (tokens : list ManualTokenInfo)
    (newToken : ManualTokenInfo) :
  ¬ Exists (has_address wanted) tokens → has_address wanted newToken →
  list_find (has_address wanted) (tokens ++ [newToken])
  = Some (length tokens, newToken).
Proof.
  intros Hnone Hnew. apply list_find_Some. split; [|split; [done|]].
  - by rewrite lookup_app_r, Nat.sub_diag by lia.
  - intros j y Hj Hlt Hy. apply Hnone. apply Exists_exists. exists y. split; [|done].
    rewrite lookup_app_l in Hj by done. by eapply list_elem_of_lookup_2.
Qed.

Lemma find_exists (wanted : string) (tokens : list ManualTokenInfo) :
  is_Some (list_find (has_address wanted) tokens)
  ↔ Exists (has_address wanted) tokens.
Proof.
  split.
  - intros [[i t] Hf]. apply list_find_Some in Hf as (Hi & Ht & _).
    apply Exists_exists. exists t. split; [|done]. by eapply list_elem_of_lookup_2.
  - intros He. destruct (list_find (has_address wanted) tokens) eqn:Hf; [by eexists|].
    apply list_find_None in Hf. apply Exists_exists in He as (t & Hin & Ht).
    rewrite Forall_forall in Hf. by destruct (Hf t Hin).
Qed.

(** X15: a token that has been added is found, and the registry holds at
    most one token per address.  [addManualToken] leaves the list as it is
    when a token with that address, in any letter case, is already there;
    otherwise it appends the token, stamped [admin] and the current time.
    Either way a lookup of the address then finds a token with that address,
    and a list free of duplicate addresses stays so. *)
Theorem added_token_is_found
    (token : NewToken) (now : string) (tokens : list ManualTokenInfo) :
  let tokens' := addManualToken token now tokens in
  let newToken :=
    {| address := new_address token; symbol := new_symbol token;
       name := new_name token; decimals := new_decimals token;
       logoUrl := new_logoUrl token; isVerified := new_isVerified token;
       isTestnet := new_isTestnet token; description := new_description token;
       addedBy := "admin"; addedAt := now |} in
  (∃ found, getManualTokenByAddress (new_address token) tokens' = Some found ∧
            has_address (new_address token) (info found)) ∧
  (Exists (has_address (new_address token)) tokens → tokens' = tokens) ∧
  (¬ Exists (has_address (new_address token)) tokens →
   tokens' = tokens ++ [newToken] ∧
   getManualTokenByAddress (new_address token) tokens' = Some (categorize newToken)) ∧
  (distinct_addresses tokens → distinct_addresses tokens').
Proof.
  cbv zeta. unfold addManualToken, getManualTokenByAddress.
  destruct (decide (Exists (has_address (new_address token)) tokens)) as [He|Hne].
  - rewrite bool_decide_eq_true_2 by done. simpl. split; [|by split].
    apply find_exists in He as [[i t] Hf]. rewrite Hf.
    apply list_find_Some in Hf as (_ & Ht & _). eauto.
  - rewrite bool_decide_eq_false_2 by done. simpl.
    rewrite find_snoc_fresh by done.
    split; [by eexists|]. split; [by intros ?|]. split; [done|].
    unfold distinct_addresses. intros Hnd. rewrite fmap_app. apply NoDup_app.
    split; [done|]. split; [|apply NoDup_singleton].
    intros key Hkey Hkey'. apply list_elem_of_singleton in Hkey'. simpl in Hkey'.
    apply list_elem_of_fmap in Hkey as (t & Heq & Hin). apply Hne.
    apply Exists_exists. exists t. split; [done|]. unfold has_address. congruence.
Qed.

Lemma snd_find_cons (P : ManualTokenInfo → Prop) `{∀ t, Decision (P t)}
    (y : ManualTokenInfo) (l : list ManualTokenInfo) :
  snd <$> list_find P (y :: l)
  = if decide (P y) then Some y else snd <$> list_find P l.
Proof.
  simpl. destruct (decide (P y)); [done|].
  by destruct (list_find P l) as [[? ?]|].
Qed.

(** Deleting a token that does not answer to an address does not change
    which token answers to it. *)
Lemma find_delete_other (P : ManualTokenInfo → Prop) `{∀ t, Decision (P t)}
    (l : list ManualTokenInfo) (i : nat) (x : ManualTokenInfo) :
  l !! i = Some x → ¬ P x →
  snd <$> list_find P (delete i l) = snd <$> list_find P l.
Proof.
  revert i. induction l as [|y l IH]; intros i Hi Hx; [done|].
  destruct i as [|i].
  - injection Hi as ->. simpl delete. rewrite snd_find_cons.
    by destruct (decide (P x)).
  - simpl in Hi. change (delete (S i) (y :: l)) with (y :: delete i l).
    rewrite !snd_find_cons. destruct (decide (P y)); [done|]. by apply IH.
Qed.

Lemma key_unique (tokens : list ManualTokenInfo) (i j : nat) (x y : ManualTokenInfo) :
  distinct_addresses tokens →
  tokens !! i = Some x → tokens !! j = Some y →
  toLowerCase (address x) = toLowerCase (address y) → i = j.
Proof.
  unfold distinct_addresses. intros Hnd Hi Hj Heq.
  eapply NoDup_lookup; [exact Hnd| |].
  - rewrite list_lookup_fmap, Hi. reflexivity.
  - rewrite list_lookup_fmap, Hj. simpl. by rewrite Heq.
Qed.

(** X16: [removeManualToken] returns true exactly when some token has the
    address, up to letter case, and then takes out the first such token and
    nothing else: lookups of every other address answer as before, and in a
    list free of duplicate addresses the address is no longer found. *)
Theorem removed_token_is_gone (wanted : string) (tokens : list ManualTokenInfo) :
  let result := removeManualToken wanted tokens in
  (result.2 = true ↔ Exists (has_address wanted) tokens) ∧
  (result.2 = false → result.1 = tokens) ∧
  (result.2 = true → S (length result.1) = length tokens) ∧
  (∀ other, toLowerCase other ≠ toLowerCase wanted →
     getManualTokenByAddress other result.1 = getManualTokenByAddress other tokens) ∧
  (distinct_addresses tokens →
     getManualTokenByAddress wanted result.1 = None ∧ distinct_addresses result.1).
Proof.
  cbv zeta. unfold removeManualToken.
  pose proof (find_exists wanted tokens) as Hex.
  destruct (list_find (has_address wanted) tokens) as [[i t]|] eqn:Hf; simpl.
  - apply list_find_Some in Hf as (Hi & Ht & Hfirst).
    split; [split; [intros _; apply Hex; eauto | done]|].
    split; [done|]. split.
    { intros _. rewrite length_delete by eauto.
      apply lookup_lt_Some in Hi. lia. }
    split.
    + intros other Hother. unfold getManualTokenByAddress.
      pose proof (find_delete_other (has_address other) tokens i t Hi) as Hd.
      assert (Hnot : ¬ has_address other t).
      { unfold has_address in *. congruence. }
      specialize (Hd Hnot).
      destruct (list_find (has_address other) (delete i tokens)) as [[? ?]|],
               (list_find (has_address other) tokens) as [[? ?]|];
        simpl in Hd; congruence.
    + intros Hnd. split.
      * unfold getManualTokenByAddress.
        destruct (list_find (has_address wanted) (delete i tokens)) as [[j y]|] eqn:Hg;
          [|done].
        exfalso. apply list_find_Some in Hg as (Hj & Hy & _).
        unfold has_address in *.
        destruct (decide (j < i)%nat) as [Hlt|Hge].
        -- rewrite list_lookup_delete_lt in Hj by done.
           assert (j = i) by (apply (key_unique tokens j i y t); [done..|congruence]).
           lia.
        -- rewrite list_lookup_delete_ge in Hj by lia.
           assert (S j = i) by (apply (key_unique tokens (S j) i y t); [done..|congruence]).
           lia.
      * unfold distinct_addresses in *. eapply sublist_NoDup; [exact Hnd|].
        apply fmap_sublist, sublist_delete.
  - split; [split; [done | intros He; apply Hex in He; by destruct He]|].
    split; [done|]. split; [done|]. split; [done|].
    intros Hnd. split; [|done]. unfold getManualTokenByAddress. by rewrite Hf.
Qed.

Lemma removed_token_is_gone_witness :
  getManualTokenByAddress "0X825de2180c8f953c6a0f117ccbad26700d302e02"
    (removeManualToken "0X825de2180c8f953c6a0f117ccbad26700d302e02"
       (MANUAL_TOKENS "2026-01-01T00:00:00.000Z")).1
  = None.
Proof.
  apply (removed_token_is_gone "0X825de2180c8f953c6a0f117ccbad26700d302e02"
           (MANUAL_TOKENS "2026-01-01T00:00:00.000Z")).
  unfold distinct_addresses. vm_compute.
  repeat (constructor; [by (intros H; repeat (apply elem_of_cons in H as [H|H];
    [discriminate H|]); by apply elem_of_nil in H)|]).
  constructor.
Defined.

(** X17: [updateManualToken] returns true exactly when some token has the
    address, and then rewrites the first such token in place: the list keeps
    its length, and when the update does not touch the address field the
    addresses of the list stay the same and a lookup of the address returns
    the stored token overlaid with the update. *)
Theorem updated_token_is_merged
    (wanted : string) (updates : TokenUpdates) (tokens : list ManualTokenInfo) :
  let result := updateManualToken wanted updates tokens in
  (result.2 = true ↔ Exists (has_address wanted) tokens) ∧
  (result.2 = false → result.1 = tokens) ∧
  length result.1 = length tokens ∧
  (set_address updates = None →
   address <$> result.1 = address <$> tokens ∧
   ∀ token, info <$> getManualTokenByAddress wanted tokens = Some token →
            info <$> getManualTokenByAddress wanted result.1
            = Some (apply_updates token updates)).
Proof.
  cbv zeta. unfold updateManualToken, getManualTokenByAddress.
  pose proof (find_exists wanted tokens) as Hex.
  destruct (list_find (has_address wanted) tokens) as [[i t]|] eqn:Hf; simpl.
  - pose proof Hf as Hf'.
    apply list_find_Some in Hf' as (Hi & Ht & Hfirst).
    split; [split; [intros _; apply Hex; eauto | done]|].
    split; [done|]. split; [apply length_insert|].
    intros Hkeep. split.
    + rewrite list_fmap_insert. apply list_insert_id.
      rewrite list_lookup_fmap, Hi. simpl. by rewrite Hkeep.
    + intros token [= <-].
      assert (Hfound : list_find (has_address wanted)
                         (<[i := apply_updates t updates]> tokens)
                       = Some (i, apply_updates t updates)).
      { apply list_find_Some. split; [|split].
        - apply list_lookup_insert_eq. by eapply lookup_lt_Some.
        - unfold has_address in *. simpl. by rewrite Hkeep.
        - intros j y Hj Hlt. rewrite list_lookup_insert_ne in Hj by lia. eauto. }
      by rewrite Hfound.
  - split; [split; [done | intros He; apply Hex in He; by destruct He]|].
    split; [done|]. split; [done|]. intros _. split; [done|]. by intros token.
Qed.

Lemma updated_token_is_merged_witness :
  symbol <$> (info <$> getManualTokenByAddress "0x31D0220469E10C4E71834A79B1F276D740D3768F"
    (updateManualToken "0x31D0220469E10C4E71834A79B1F276D740D3768F"
       {| set_address := None; set_symbol := Some "USDC.e"; set_name := None;
          set_decimals := Some 6; set_logoUrl := None; set_isVerified := None;
          set_isTestnet := None; set_description := Some None;
          set_addedBy := None; set_addedAt := None |}
       (MANUAL_TOKENS "2026-01-01T00:00:00.000Z")).1)
  = Some "USDC.e".
Proof.
  pose proof (updated_token_is_merged "0x31D0220469E10C4E71834A79B1F276D740D3768F"
    {| set_address := None; set_symbol := Some "USDC.e"; set_name := None;
       set_decimals := Some 6; set_logoUrl := None; set_isVerified := None;
       set_isTestnet := None; set_description := Some None;
       set_addedBy := None; set_addedAt := None |}
    (MANUAL_TOKENS "2026-01-01T00:00:00.000Z")) as (_ & _ & _ & H).
  destruct (H eq_refl) as [_ Hget].
  erewrite Hget; reflexivity.
Defined.

(** *** Categories and search *)

(** X18: no token is ever categorised as [custom]: [getTokenCategory]
    answers one of the other five categories, so asking the registry for the
    tokens of the category [custom] returns nothing, whatever it holds. *)
Theorem custom_category_is_never_assigned :
  (∀ symbol name, getTokenCategory symbol name ≠ CUSTOM) ∧
  (∀ tokens, getTokensByCategory CUSTOM tokens = []) ∧
  (∀ tokens token, token ∈ getAllManualTokens tokens → category token ≠ CUSTOM).
Proof.
  assert (Hnever : ∀ symbol name, getTokenCategory symbol name ≠ CUSTOM).
  { intros symbol name. unfold getTokenCategory.
    repeat match goal with |- context [if ?b then _ else _] => destruct b end;
      discriminate. }
  split; [done|]. split.
  - intros tokens. unfold getTokensByCategory.
    induction tokens as [|t tokens IH]; [done|].
    rewrite fmap_cons, filter_cons. case_decide as Hc; [|done].
    by apply Hnever in Hc.
  - intros tokens token Hin. unfold getAllManualTokens in Hin.
    apply list_elem_of_fmap in Hin as (t & -> & _). apply Hnever.
Qed.

Lemma lower_upper (c : ascii) : lower (upper c) = lower c.
Proof. destruct c as [[] [] [] [] [] [] [] []]; reflexivity. Qed.

Lemma toLowerCase_toUpperCase (s : string) : toLowerCase (toUpperCase s) = toLowerCase s.
Proof. induction s as [|c s IH]; simpl; [done|]. by rewrite lower_upper, IH. Qed.

Lemma includes_empty (s : string) : includes s "" = true.
Proof. by destruct s. Qed.

(** X19: the search ignores the letter case of the query, and the empty
    query finds every token of the registry. *)
Theorem search_ignores_case (query : string) (tokens : list ManualTokenInfo) :
  searchManualTokens (toUpperCase query) tokens = searchManualTokens query tokens ∧
  searchManualTokens "" tokens = getAllManualTokens tokens.
Proof.
  split.
  - unfold searchManualTokens. by rewrite toLowerCase_toUpperCase.
  - unfold searchManualTokens, getAllManualTokens. simpl toLowerCase.
    induction tokens as [|t tokens IH]; [done|].
    rewrite fmap_cons, filter_cons. rewrite IH.
    case_decide as Hc; [done|]. exfalso. apply Hc.
    by rewrite includes_empty.
Qed.

(** *** The address format *)

Lemma is_hex_lower (c : ascii) : is_hex c = true → is_hex (lower c) = true.
Proof. destruct c as [[] [] [] [] [] [] [] []]; simpl; intros H; done. Qed.

Lemma hex_run_spec (count : nat) (s : string) :
  hex_run count s = true →
  String.length s = count ∧ hex_run count (toLowerCase s) = true.
Proof.
  revert s. induction count as [|count IH]; intros [|c s]; simpl; try done.
  intros [Hc Hs]%andb_true_iff. destruct (IH s Hs) as [Hlen Hlow].
  split; [by rewrite Hlen|]. apply andb_true_iff. split; [|done].
  by apply is_hex_lower.
Qed.

(** X20: a string accepted by [isValidTokenAddress] has exactly 42
    characters, and its lower-cased form, the key under which the caches
    and the registry compare addresses, is accepted as well. *)
Theorem valid_address_shape (address : string) :
  isValidTokenAddress address = true →
  String.length address = 42%nat ∧
  isValidTokenAddress (toLowerCase address) = true.
Proof.
  unfold isValidTokenAddress, is_address.
  destruct address as [|c0 [|c1 rest]]; try done.
  intros [[H0 H1]%andb_true_iff Hrun]%andb_true_iff.
  apply N.eqb_eq in H0, H1.
  destruct (hex_run_spec 40 rest Hrun) as [Hlen Hlow].
  split; [simpl; by rewrite Hlen|].
  assert (c0 = "0"%char) as -> by (rewrite <- (ascii_N_embedding c0), H0; reflexivity).
  assert (c1 = "x"%char) as -> by (rewrite <- (ascii_N_embedding c1), H1; reflexivity).
  change (toLowerCase (String "0" (String "x" rest)))
    with (String "0"%char (String "x"%char (toLowerCase rest))).
  cbv beta iota. by rewrite Hlow.
Qed.

Lemma valid_address_shape_witness :
  isValidTokenAddress (toLowerCase "0xaE3D01B14727dB642d1B7A40460faE24d7182d10") = true.
Proof.
  apply (valid_address_shape "0xaE3D01B14727dB642d1B7A40460faE24d7182d10").
  reflexivity.
Defined.

End ManualTokensFacts.

(** ** Properties of the token API service *)

Module TokenApiFacts.
Import Js TokenApi Scenarios.Api.

Lemma getCachedToken_fresh (T T' : Z) (address : string) (token : TokenInfo)
    (s : Service) :
  0 ≤ T → T' < T + CACHE_DURATION →
  getCachedToken T' address (cacheToken T address token s)
  = (cacheToken T address token s, Some token).
Proof.
  intros HT HT'.
  assert (Hnz : T + CACHE_DURATION ≠ 0) by (unfold CACHE_DURATION; lia).
  unfold getCachedToken, truthy_number. simpl cache. simpl cacheExpiry.
  rewrite !lookup_insert_eq. cbn [default].
  rewrite (bool_decide_eq_true_2 (is_Some (Some token))) by eauto.
  rewrite (bool_decide_eq_true_2 (T + CACHE_DURATION ≠ 0)) by done.
  by rewrite bool_decide_eq_true_2 by (unfold id; lia).
Qed.

Lemma getCachedToken_stale (T T' : Z) (address : string) (token : TokenInfo)
    (s : Service) :
  0 ≤ T → T + CACHE_DURATION ≤ T' →
  getCachedToken T' address (cacheToken T address token s)
  = ({| cache := delete address (cache (cacheToken T address token s));
        cacheExpiry := delete address (cacheExpiry (cacheToken T address token s)) |},
     None).
Proof.
  intros HT HT'.
  assert (Hnz : T + CACHE_DURATION ≠ 0) by (unfold CACHE_DURATION; lia).
  unfold getCachedToken, truthy_number. simpl cache. simpl cacheExpiry.
  rewrite !lookup_insert_eq. cbn [default].
  rewrite (bool_decide_eq_true_2 (is_Some (Some token))) by eauto.
  rewrite (bool_decide_eq_true_2 (T + CACHE_DURATION ≠ 0)) by done.
  rewrite (bool_decide_eq_false_2 (T' < id (T + CACHE_DURATION))) by (unfold id; lia).
  by rewrite bool_decide_eq_true_2 by (unfold id; lia).
Qed.

(** X21: a token put in the cache of the service at a time T that is not
    negative is returned, with the service unchanged and without a fetch,
    at every time before T + 5 min, under exactly the address string it was
    stored for; from T + 5 min on the lookup removes the token and its
    expiry and the service fetches again. *)
Theorem cached_token_round_trip
    (T T' : Z) (address : string) (token : TokenInfo) (s : Service) :
  0 ≤ T →
  let s1 := cacheToken T address token s in
  (T' < T + CACHE_DURATION →
   getCachedToken T' address s1 = (s1, Some token) ∧
   getTokenByAddress T' address s1 = (s1, Cached token)) ∧
  (T + CACHE_DURATION ≤ T' →
   let s2 := (getCachedToken T' address s1).1 in
   (getCachedToken T' address s1).2 = None ∧
   cache s2 !! address = None ∧ cacheExpiry s2 !! address = None ∧
   ∃ url, getTokenByAddress T' address s1 = (s2, Fetching url)).
Proof.
  intros HT. cbv zeta. split; intros HT'.
  - pose proof (getCachedToken_fresh T T' address token s HT HT') as Hget.
    split; [done|]. unfold getTokenByAddress. by rewrite Hget.
  - pose proof (getCachedToken_stale T T' address token s HT HT') as Hget.
    rewrite Hget. simpl. split; [done|].
    split; [apply lookup_delete_eq|]. split; [apply lookup_delete_eq|].
    unfold getTokenByAddress. rewrite Hget. eauto.
Qed.

Lemma cached_token_round_trip_witness :
  getTokenByAddress 299999 "0xA" (cacheToken 0 "0xA" (sample "0xA") empty)
  = (cacheToken 0 "0xA" (sample "0xA") empty, Cached (sample "0xA")).
Proof.
  apply (cached_token_round_trip 0 299999 "0xA" (sample "0xA") empty);
    [discriminate | reflexivity].
Defined.

(** X22: a lookup of the service that fails (the fetch rejects, the answer
    is not ok, its body cannot be read or holds no token) returns null and
    caches nothing, so the next lookup fetches again; a lookup that succeeds
    returns the token and caches it: until five minutes later the same
    address string is answered from the cache. *)
Theorem fetched_token_is_cached
    (now T' : Z) (address : string) (fetched : Fetched) (s : Service) :
  0 ≤ now → T' < now + CACHE_DURATION →
  let finished := getTokenByAddress_resume now address fetched s in
  match fetched with
  | Body (Some token) =>
      finished.2 = Some token ∧
      getTokenByAddress T' address finished.1 = (finished.1, Cached token)
  | _ => finished = (s, None)
  end.
Proof.
  intros Hnow HT'. cbv zeta. destruct fetched as [| | |[token|]]; try done.
  simpl. split; [done|]. unfold getTokenByAddress.
  by rewrite getCachedToken_fresh.
Qed.

Lemma fetched_token_is_cached_witness :
  getTokenByAddress 60000 "0xA"
    (getTokenByAddress_resume 0 "0xA" (Body (Some (sample "0xA"))) empty).1
  = ((getTokenByAddress_resume 0 "0xA" (Body (Some (sample "0xA"))) empty).1,
     Cached (sample "0xA")).
Proof.
  apply (fetched_token_is_cached 0 60000 "0xA" (Body (Some (sample "0xA"))) empty);
    [discriminate | reflexivity].
Defined.

Lemma paired_getCachedToken (now : Z) (address : string) (s : Service) :
  paired s → paired (getCachedToken now address s).1.
Proof.
  unfold paired, getCachedToken. intros Hs.
  destruct (_ && _ && _); [done|]. destruct (_ && _); [|done].
  simpl. by rewrite !dom_delete_L, Hs.
Qed.

(** X23: the two maps of the service never drift apart: starting from the
    empty service, after any lookups, fetches and clearings every key of
    [cache] has an expiry and every expiry a token. *)
Theorem maps_stay_paired (s : Service) :
  paired s →
  (∀ now address, paired (getCachedToken now address s).1) ∧
  (∀ now address token, paired (cacheToken now address token s)) ∧
  (∀ now address, paired (getTokenByAddress now address s).1) ∧
  (∀ now address fetched, paired (getTokenByAddress_resume now address fetched s).1) ∧
  paired (clearCache s) ∧ paired empty.
Proof.
  intros Hs.
  assert (Hput : ∀ now address token, paired (cacheToken now address token s)).
  { intros now address token. unfold paired, cacheToken. simpl.
    by rewrite !dom_insert_L, Hs. }
  split; [intros; by apply paired_getCachedToken|]. split; [done|]. split.
  - intros now address. unfold getTokenByAddress.
    pose proof (paired_getCachedToken now address s Hs) as Hg.
    by destruct (getCachedToken now address s) as [s' [cached|]].
  - split; [|split].
    + intros now address fetched. destruct fetched as [| | |[token|]]; simpl; auto.
    + unfold paired, clearCache. simpl. by rewrite !dom_empty_L.
    + unfold paired, empty. simpl. by rewrite !dom_empty_L.
Qed.

Lemma maps_stay_paired_witness :
  paired (getTokenByAddress_resume 0 "0xA" (Body (Some (sample "0xA"))) empty).1.
Proof.
  destruct (maps_stay_paired empty) as (_ & _ & _ & H & _).
  - unfold paired, empty. simpl. by rewrite !dom_empty_L.
  - apply H.
Defined.

End TokenApiFacts.
